(** * go-commuter: queues of commuting operations

    A shallow embedding of [commutator.go]: the [Commuter] interface, the
    sequential drains ([Dequeue], [CollapseQueue], [CompressQueue]), the
    commutator-driven compressor of [CommuterWithCommutator] and the
    goroutine-based drains ([PCollapseQueue], [CCompressQueue]).

    Go methods mutate the receiver; here every method is a state
    transformer over the receiver that either returns, panics, or runs out
    of the fuel given to an unbounded [for] loop. *)

From Stdlib Require Import ZArith List Bool Lia Permutation.
Import ListNotations.
Open Scope Z_scope.

(** ** Values *)

(** [interface{}]: the operands of the queue are type-erased.  The source
    boxes numbers (the examples of the package comment) and, in
    [CollapseQueue], a whole [[]interface{}]. *)
#[warnings="-register-all"]
Inductive iface : Type :=
| Nil : iface
| Int (z : Z)
| Slice (xs : list iface).

(** Go's [int] on the 64-bit targets: two's complement wrap-around. *)
Definition wrap64 (z : Z) : Z := (z + 2 ^ 63) mod 2 ^ 64 - 2 ^ 63.

(** Failures.  The first three are the run-time panics of the Go statements
    the source uses; the last three are the error taxonomy of the
    specification. *)
Inductive panic : Type :=
| IntegerDivideByZero
| NilPointerDereference
| SliceBoundsOutOfRange
| EmptyQueueError
| InvalidWorkerCountError
| InsufficientOperandsError.

(** ** Receivers as state: a state-and-panic monad *)

Inductive outcome (S A : Type) : Type :=
| Returned (a : A) (s : S)
| Panicked (p : panic) (s : S)
| OutOfFuel (s : S).

Arguments Returned {S A} a s.
Arguments Panicked {S A} p s.
Arguments OutOfFuel {S A} s.

Definition M (S A : Type) : Type := S -> outcome S A.

Definition ret {S A} (a : A) : M S A := fun s => Returned a s.

Definition bind {S A B} (m : M S A) (k : A -> M S B) : M S B :=
  fun s =>
    match m s with
    | Returned a s' => k a s'
    | Panicked p s' => Panicked p s'
    | OutOfFuel s' => OutOfFuel s'
    end.

Definition throw {S A} (p : panic) : M S A := fun s => Panicked p s.

Declare Scope go_scope.
Delimit Scope go_scope with go.
Notation "x <- m ;; k" := (bind m (fun x => k))
  (at level 61, m at next level, right associativity) : go_scope.
Notation "m ;;; k" := (bind m (fun _ => k))
  (at level 61, right associativity) : go_scope.
Open Scope go_scope.

(** The state an outcome leaves behind, whatever the way it ended. *)
Definition final_state {S A} (o : outcome S A) : S :=
  match o with
  | Returned _ s => s
  | Panicked _ s => s
  | OutOfFuel s => s
  end.

(** [for _, x := range xs { body x }] *)
Fixpoint range_for {S A} (xs : list A) (body : A -> M S unit) : M S unit :=
  match xs with
  | [] => ret tt
  | x :: xs' => body x ;;; range_for xs' body
  end.

(** [for i := lo; i < hi; i++ { body i }], unrolled [n] times from [i].
    The counter stays below the bound, so [i++] never wraps. *)
Fixpoint for_from {S} (n : nat) (i : Z) (body : Z -> M S unit) : M S unit :=
  match n with
  | O => ret tt
  | S n' => body i ;;; for_from n' (i + 1) body
  end.

Definition for_upto {S} (hi : Z) (body : Z -> M S unit) : M S unit :=
  for_from (Z.to_nat hi) 0 body.

(** [for cond { body }]: the loop has no bound of its own, so it runs on
    fuel. *)
Fixpoint while {S} (fuel : nat) (cond : M S bool) (body : M S unit) : M S unit :=
  match fuel with
  | O => fun s => OutOfFuel s
  | S fuel' =>
      b <- cond ;;
      if b then body ;;; while fuel' cond body else ret tt
  end.

(** ** The Commuter interface *)

(** The five methods of [type Commuter interface], followed by the three
    methods the package calls on a Commuter without declaring them
    ([QueueLength], [Queue], [Enqueue]). *)
Class Commuter (C : Type) : Type := {
  COp : iface -> M C unit;
  Push : iface -> M C unit;
  Pop : M C iface;
  EmptyQueue : M C (list iface);
  GetQueueLength : M C Z;
  QueueLength : M C Z;
  Queue : M C (list iface);
  Enqueue : iface -> M C unit
}.

(** [type Commutator func(interface{}, interface{}) interface{}] *)
Definition Commutator : Type := iface -> iface -> iface.

(** [type CommuterWithCommutator struct { Commuter; Commutator }]: the two
    embedded fields. *)
Record CommuterWithCommutator (C : Type) : Type := {
  commuter : C;
  commutator : Commutator
}.

Arguments commuter {C} _.
Arguments commutator {C} _.

(** A method of the embedded Commuter, run on the enclosing struct. *)
Definition promoted {C A} (m : M C A) : M (CommuterWithCommutator C) A :=
  fun cc =>
    let put c' := {| commuter := c'; commutator := commutator cc |} in
    match m (commuter cc) with
    | Returned a c' => Returned a (put c')
    | Panicked p c' => Panicked p (put c')
    | OutOfFuel c' => OutOfFuel (put c')
    end.

Section Methods.

Context {C : Type} `{Commuter C}.

(** One merge round of the compressor: the body of the loop of
    [CompressQueue] on a [CommuterWithCommutator]. *)
Definition merge_round : M (CommuterWithCommutator C) unit :=
  i1 <- promoted Pop ;;
  i2 <- promoted Pop ;;
  fun cc => promoted (Push (commutator cc i1 i2)) cc.

(** [func (c *CommuterWithCommutator) CompressQueue(numOps int)] *)
Definition CommuterWithCommutator_CompressQueue (numOps : Z)
  : M (CommuterWithCommutator C) unit :=
  for_upto numOps (fun _ => merge_round).

(** [func (c *Commuter) Dequeue()] *)
Definition Dequeue : M C unit :=
  i <- Pop ;; COp i.

(** [func (c *Commuter) AggregateOp(i interface{})] *)
Definition AggregateOp (i : iface) : M C unit :=
  Enqueue i.

(** [func (c *Commuter) CollapseQueue()].  The body of the loop passes
    the slice [q], not the element it ranges over. *)
Definition CollapseQueue : M C unit :=
  q <- EmptyQueue ;;
  range_for q (fun _ => COp (Slice q)).

(** [func (c *Commuter) CompressQueue(desiredLength int)] (declared
    twice, with the same body). *)
Definition Commuter_CompressQueue (fuel : nat) (desiredLength : Z) : M C unit :=
  while fuel
    (l <- QueueLength ;; ret (desiredLength <? l))
    Dequeue.

End Methods.

(** ** Goroutines *)

(** The slice expression [q[lo:hi]] on a slice whose capacity is its
    length: out of range it panics, here [None]. *)
Definition slice_expr {A} (q : list A) (lo hi : Z) : option (list A) :=
  if (0 <=? lo) && (lo <=? hi) && (hi <=? Z.of_nat (length q))
  then Some (firstn (Z.to_nat (hi - lo)) (skipn (Z.to_nat lo) q))
  else None.

(** [*int]: [None] is the nil pointer, [Some a] the cell [a] of the heap of
    [int] cells. *)
Definition ptr : Type := option nat.

Fixpoint update {A} (k : nat) (x : A) (l : list A) : list A :=
  match l, k with
  | [], _ => []
  | _ :: t, O => x :: t
  | h :: t, S k' => h :: update k' x t
  end.

(** [*p] read and [*p = v]; [None] is the nil-dereference panic. *)
Definition load (p : ptr) (cells : list Z) : option Z :=
  match p with
  | None => None
  | Some a => nth_error cells a
  end.

Definition store (p : ptr) (v : Z) (cells : list Z) : option (list Z) :=
  match p with
  | None => None
  | Some a => if (a <? length cells)%nat then Some (update a v cells) else None
  end.

(** Where the goroutine [func(j *int) { for *j < numOps { c.Dequeue(); *j++ } }]
    of [CCompressQueue] stands. *)
Inductive counting_pc : Type :=
| AtTest
| AtDequeue
| AtIncrement.

(** A spawned goroutine.  [Draining rest join] is the worker of
    [PCollapseQueue], [for _, i := range is { c.COp(i) }], with [rest] still
    to range over; [join] tells the variant that has [defer wg.Done()].
    [Counting] is the worker of [CCompressQueue]. *)
Inductive goroutine : Type :=
| Draining (rest : list iface) (join : bool)
| Counting (j : ptr) (numOps : Z) (pc : counting_pc)
| Exited.

(** Where the calling goroutine stands. *)
Inductive caller_state : Type :=
| Spawning (join : bool) (s : Z) (q : list iface) (i : Z)
| SpawningCounters (j : ptr) (numOps numWorkers i : Z)
| Waiting
| Back
| Crashed (p : panic)
| Starved.

(** The program state of a call that spawns goroutines: the Commuter they
    share, the [int] cells, the counter of the [sync.WaitGroup], the
    goroutines in spawn order, the caller, and how many times [wg.Wait()]
    has returned. *)
Record machine (C : Type) : Type := {
  shared : C;
  cells : list Z;
  wg : Z;
  goroutines : list goroutine;
  caller : caller_state;
  waits : nat
}.

Arguments shared {C} _.
Arguments cells {C} _.
Arguments wg {C} _.
Arguments goroutines {C} _.
Arguments caller {C} _.
Arguments waits {C} _.

Definition set_caller {C} (st : caller_state) (m : machine C) : machine C :=
  {| shared := shared m; cells := cells m; wg := wg m;
     goroutines := goroutines m; caller := st; waits := waits m |}.

Definition set_goroutine {C} (k : nat) (g : goroutine) (m : machine C) : machine C :=
  {| shared := shared m; cells := cells m; wg := wg m;
     goroutines := update k g (goroutines m); caller := caller m;
     waits := waits m |}.

Definition set_shared {C} (c : C) (m : machine C) : machine C :=
  {| shared := c; cells := cells m; wg := wg m;
     goroutines := goroutines m; caller := caller m; waits := waits m |}.

Definition set_cells {C} (h : list Z) (m : machine C) : machine C :=
  {| shared := shared m; cells := h; wg := wg m;
     goroutines := goroutines m; caller := caller m; waits := waits m |}.

Definition add_wg {C} (d : Z) (m : machine C) : machine C :=
  {| shared := shared m; cells := cells m; wg := wg m + d;
     goroutines := goroutines m; caller := caller m; waits := waits m |}.

(** The [go] statement. *)
Definition spawn {C} (g : goroutine) (m : machine C) : machine C :=
  {| shared := shared m; cells := cells m; wg := wg m;
     goroutines := goroutines m ++ [g]; caller := caller m;
     waits := waits m |}.

Definition wait_returns {C} (m : machine C) : machine C :=
  {| shared := shared m; cells := cells m; wg := wg m;
     goroutines := goroutines m; caller := Back; waits := S (waits m) |}.

(** How a method run by some goroutine on the shared Commuter ends. *)
Definition settle {C A} (o : outcome C A) (k : A -> machine C -> machine C)
    (m : machine C) : machine C :=
  match o with
  | Returned a c' => k a (set_shared c' m)
  | Panicked p c' => set_caller (Crashed p) (set_shared c' m)
  | OutOfFuel c' => set_caller Starved (set_shared c' m)
  end.

Section Concurrent.

Context {C : Type} `{Commuter C}.

(** [a / b] on [int]: panics on a zero divisor, truncates toward zero. *)
Definition int_div (a b : Z) : M C Z :=
  if b =? 0 then throw IntegerDivideByZero else ret (wrap64 (Z.quot a b)).

(** The statements of [PCollapseQueue] before its loop:
    [l := c.GetQueueLength(); s := l / numWorkers; q := c.Queue()]. *)
Definition PCollapseQueue_prologue (numWorkers : Z) : M C (Z * list iface) :=
  l <- GetQueueLength ;;
  s <- int_div l numWorkers ;;
  q <- Queue ;;
  ret (s, q).

(** [func (c *Commuter) PCollapseQueue(numWorkers int)], up to the head
    of its loop.  The source declares the method twice: [join = false] is
    the first declaration (lines 151-165, the one its comment calls
    CCollapseQueue), [join = true] the second (lines 172-190), which adds
    [wg.Add(1)], [defer wg.Done()] and [wg.Wait()]. *)
Definition PCollapseQueue (join : bool) (numWorkers : Z) (c : C) : machine C :=
  settle (PCollapseQueue_prologue numWorkers c)
    (fun sq => set_caller (Spawning join (fst sq) (snd sq) 0))
    {| shared := c; cells := []; wg := 0; goroutines := [];
       caller := Back; waits := 0 |}.

(** [func (c *Commuter) CCompressQueue(desiredLength int, numWorkers int)],
    up to the head of its loop:
    [numOps := c.QueueLength() - desiredLength; var j *int; *j = 0]. *)
Definition CCompressQueue (desiredLength numWorkers : Z) (c : C) : machine C :=
  settle ((l <- QueueLength ;; ret (wrap64 (l - desiredLength))) c)
    (fun numOps m =>
       let j : ptr := None in
       match store j 0 (cells m) with
       | Some h => set_caller (SpawningCounters j numOps numWorkers 0)
                     (set_cells h m)
       | None => set_caller (Crashed NilPointerDereference) m
       end)
    {| shared := c; cells := []; wg := 0; goroutines := [];
       caller := Back; waits := 0 |}.

(** One step of the calling goroutine: one turn of a spawning loop, or
    [wg.Wait()], which returns only on a zero counter. *)
Definition caller_step (m : machine C) : machine C :=
  match caller m with
  | Spawning join s q i =>
      if i <? s then
        let m1 := if join then add_wg 1 m else m in
        match slice_expr q (wrap64 (i * s)) (wrap64 ((i + 1) * s)) with
        | Some sl =>
            set_caller (Spawning join s q (i + 1))
              (spawn (Draining sl join) m1)
        | None => set_caller (Crashed SliceBoundsOutOfRange) m1
        end
      else set_caller (if join then Waiting else Back) m
  | SpawningCounters j numOps numWorkers i =>
      if i <? numWorkers then
        set_caller (SpawningCounters j numOps numWorkers (i + 1))
          (spawn (Counting j numOps AtTest) m)
      else set_caller Back m
  | Waiting => if wg m =? 0 then wait_returns m else m
  | Back | Crashed _ | Starved => m
  end.

(** One step of the goroutine spawned [k]-th. *)
Definition goroutine_step (k : nat) (m : machine C) : machine C :=
  match nth_error (goroutines m) k with
  | Some (Draining (v :: rest) join) =>
      settle (COp v (shared m))
        (fun _ => set_goroutine k (Draining rest join)) m
  | Some (Draining [] join) =>
      set_goroutine k Exited (if join then add_wg (-1) m else m)
  | Some (Counting j numOps AtTest) =>
      match load j (cells m) with
      | Some v =>
          set_goroutine k
            (if v <? numOps then Counting j numOps AtDequeue else Exited) m
      | None => set_caller (Crashed NilPointerDereference) m
      end
  | Some (Counting j numOps AtDequeue) =>
      settle (Dequeue (shared m))
        (fun _ => set_goroutine k (Counting j numOps AtIncrement)) m
  | Some (Counting j numOps AtIncrement) =>
      match load j (cells m) with
      | Some v =>
          match store j (wrap64 (v + 1)) (cells m) with
          | Some h => set_goroutine k (Counting j numOps AtTest) (set_cells h m)
          | None => set_caller (Crashed NilPointerDereference) m
          end
      | None => set_caller (Crashed NilPointerDereference) m
      end
  | Some Exited | None => m
  end.

(** One scheduling decision: thread [0] is the caller, thread [S k] the
    goroutine spawned [k]-th.  A panic ends the program. *)
Definition step (t : nat) (m : machine C) : machine C :=
  match caller m with
  | Crashed _ | Starved => m
  | _ => match t with
         | O => caller_step m
         | S k => goroutine_step k m
         end
  end.

(** A run under a schedule: the threads take their steps in the order the
    schedule lists them. *)
Definition run (sched : list nat) (m : machine C) : machine C :=
  fold_left (fun m t => step t m) sched m.

End Concurrent.

(** ** A first-in first-out Commuter *)

(** The calls a Commuter has served, oldest first.  [CallPop] records the
    queue length the pop found. *)
Inductive event : Type :=
| CallCOp (v : iface)
| CallPush (v : iface)
| CallPop (len : nat)
| CallEmptyQueue.

Record fifo : Type := {
  queue : list iface;
  log : list event
}.

Definition record_call (e : event) (q : list iface) (c : fifo) : fifo :=
  {| queue := q; log := log c ++ [e] |}.

(** The source declares the methods of [Commuter] and implements none of
    them, and it calls three more ([QueueLength], [Queue], [Enqueue]) that
    it declares nowhere.  The eight definitions below follow sections 3 and
    4 of the specification. *)

(** Modelled from the spec: no Commuter of the source implements [COp].
    "COp(operand): applies the domain operation once to shared state"; the
    domain is the caller's, so all that is kept is the call and its
    operand. *)
Definition fifo_COp (v : iface) : M fifo unit :=
  fun c => Returned tt (record_call (CallCOp v) (queue c) c).

(** Modelled from the spec: no Commuter of the source implements [Push].
    "Push appends to the tail", with no error condition. *)
Definition fifo_Push (v : iface) : M fifo unit :=
  fun c => Returned tt (record_call (CallPush v) (queue c ++ [v]) c).

(** Modelled from the spec: no Commuter of the source implements [Pop].
    "Pop removes and returns the oldest remaining Operand (FIFO)"; "Popping
    from an empty queue -> EmptyQueueError, state unchanged". *)
Definition fifo_Pop : M fifo iface :=
  fun c =>
    match queue c with
    | [] => Panicked EmptyQueueError c
    | v :: rest => Returned v (record_call (CallPop (length (queue c))) rest c)
    end.

(** Modelled from the spec: no Commuter of the source implements
    [EmptyQueue].  It "detaches and returns all current contents as an
    ordered sequence, leaving the queue empty". *)
Definition fifo_EmptyQueue : M fifo (list iface) :=
  fun c => Returned (queue c) (record_call CallEmptyQueue [] c).

(** Modelled from the spec: no Commuter of the source implements
    [GetQueueLength], the "current count".  A Go length fits an [int]. *)
Definition fifo_GetQueueLength : M fifo Z :=
  fun c => Returned (Z.of_nat (length (queue c))) c.

(** Modelled from the spec: [QueueLength] is called by the source and
    declared nowhere.  The specification has one length query,
    [GetQueueLength]. *)
Definition fifo_QueueLength : M fifo Z := fifo_GetQueueLength.

(** Modelled from the spec: [Queue] is called by the source and declared
    nowhere.  The concurrent drain is to "detach the current contents as an
    ordered sequence (via EmptyQueue-equivalent semantics)". *)
Definition fifo_Queue : M fifo (list iface) := fifo_EmptyQueue.

(** Modelled from the spec: [Enqueue] is called by the source and declared
    nowhere.  [AggregateOp] "enqueues an operand for later application", and
    the queue "grows via Push/AggregateOp": to enqueue is to push. *)
Definition fifo_Enqueue (v : iface) : M fifo unit := fifo_Push v.

(** Modelled from the spec: the Commuter the eight definitions above make
    up, the only one the claims are settled on. *)
#[export] Instance fifo_Commuter : Commuter fifo := {|
  COp := fifo_COp;
  Push := fifo_Push;
  Pop := fifo_Pop;
  EmptyQueue := fifo_EmptyQueue;
  GetQueueLength := fifo_GetQueueLength;
  QueueLength := fifo_QueueLength;
  Queue := fifo_Queue;
  Enqueue := fifo_Enqueue
|}.

(** The operands [COp] was called with, in call order. *)
Definition cop_args (evs : list event) : list iface :=
  flat_map (fun e => match e with CallCOp v => [v] | _ => [] end) evs.

(** The queue lengths the pops found, in call order. *)
Definition pop_lens (evs : list event) : list nat :=
  flat_map (fun e => match e with CallPop n => [n] | _ => [] end) evs.

Definition queue_len (c : fifo) : Z := Z.of_nat (length (queue c)).

(** The calls of the dequeues that drain the operands [p] from the head of
    a queue that keeps [k] operands behind them. *)
Fixpoint dequeue_events (p : list iface) (k : nat) : list event :=
  match p with
  | [] => []
  | v :: p' =>
      CallPop (length p + k) :: CallCOp v :: dequeue_events p' k
  end.


(** The compression length law, as the specification words it for one
    queue state and one target: the call returns, leaves at most
    [desiredLength] operands when it started above it, and changes nothing
    otherwise. *)
Definition compression_length_law (c : fifo) (desiredLength : Z) : Prop :=
  exists fuel c',
    Commuter_CompressQueue fuel desiredLength c = Returned tt c' /\
    (desiredLength < queue_len c -> queue_len c' <= desiredLength) /\
    (queue_len c <= desiredLength -> c' = c).

(** ** Observations on a pool of goroutines *)

(** The operands the drain workers still have to apply. *)
Definition pending (gs : list goroutine) : list iface :=
  flat_map (fun g => match g with Draining rest _ => rest | _ => [] end) gs.

Definition is_live (g : goroutine) : bool :=
  match g with
  | Exited => false
  | _ => true
  end.

(** The number of goroutines that have not exited. *)
Definition live (gs : list goroutine) : nat := length (filter is_live gs).

(** A drain worker of the given variant, running or exited. *)
Definition drains_with (join : bool) (g : goroutine) : Prop :=
  match g with
  | Draining _ j => j = join
  | Counting _ _ _ => False
  | Exited => True
  end.

(** [s := l / numWorkers] of [PCollapseQueue] on a queue state. *)
Definition slice_size (c : fifo) (numWorkers : Z) : Z :=
  wrap64 (Z.quot (queue_len c) numWorkers).

(** The slice [q[i*s : (i+1)*s]] the [i]-th turn of the loop of
    [PCollapseQueue] hands to its goroutine, if it is in range. *)
Definition worker_slice (s : Z) (q : list iface) (i : nat) : list (list iface) :=
  match slice_expr q (wrap64 (Z.of_nat i * s)) (wrap64 ((Z.of_nat i + 1) * s)) with
  | Some sl => [sl]
  | None => []
  end.

(** The slices handed out by the first [n] turns. *)
Definition slices_upto (s : Z) (q : list iface) (n : nat) : list (list iface) :=
  flat_map (worker_slice s q) (seq 0 n).

(** What every state of a run of [PCollapseQueue] satisfies, once the
    prologue has computed [s] and [q] on a Commuter on which [COp] had been
    called with [base]: [n] turns of the loop are done, the operands applied
    so far and those pending make up the slices handed out, and in the
    joining variant the WaitGroup counts the goroutines that have not
    exited. *)
Definition drain_inv (join : bool) (s : Z) (q base : list iface)
    (m : machine fifo) : Prop :=
  exists n : nat,
    (n <= Z.to_nat s)%nat /\
    (length (goroutines m) <= n)%nat /\
    Forall (drains_with join) (goroutines m) /\
    Permutation (cop_args (log (shared m)) ++ pending (goroutines m))
                (base ++ concat (slices_upto s q n)) /\
    match caller m with
    | Spawning j s' q' i =>
        j = join /\ s' = s /\ q' = q /\ i = Z.of_nat n /\ waits m = 0%nat /\
        (join = true -> wg m = Z.of_nat (live (goroutines m)))
    | Waiting =>
        join = true /\ n = Z.to_nat s /\ waits m = 0%nat /\
        wg m = Z.of_nat (live (goroutines m))
    | Back =>
        n = Z.to_nat s /\
        if join
        then waits m = 1%nat /\ wg m = 0 /\ live (goroutines m) = 0%nat
        else waits m = 0%nat
    | Crashed p =>
        p = SliceBoundsOutOfRange /\ (n < Z.to_nat s)%nat /\ waits m = 0%nat
    | SpawningCounters _ _ _ _ => False
    | Starved => False
    end.

(** The merge rule of the package comment for "subtract by": addition. *)
Definition add_commutator : Commutator :=
  fun i1 i2 =>
    match i1, i2 with
    | Int a, Int b => Int (a + b)
    | _, _ => Nil
    end.

(** The backlog of ten operands [0 .. 9]. *)
Definition ten_operands : list iface :=
  map Int [0; 1; 2; 3; 4; 5; 6; 7; 8; 9].

(** The state a call leaves when it panics before it has touched anything. *)
Definition crashed_at_entry (p : panic) (c : fifo) : machine fifo :=
  {| shared := c; cells := []; wg := 0; goroutines := [];
     caller := Crashed p; waits := 0 |}.

(** The claim on worker counts, as the specification words it for one call:
    the call fails with [InvalidWorkerCountError], having spawned nothing
    and left the Commuter as it was. *)
Definition rejects_worker_count (c : fifo) (m : machine fifo) : Prop :=
  caller m = Crashed InvalidWorkerCountError /\
  goroutines m = [] /\
  shared m = c.


(** ** Further observations *)

(** The merges of the adjacent pairs of a list, in order: what the rounds of
    the compressor push while they still consume original operands. *)
Fixpoint merge_pairs (f : Commutator) (l : list iface) : list iface :=
  match l with
  | a :: b :: rest => f a b :: merge_pairs f rest
  | _ => []
  end.

(** The sum of a measure over a list of operands. *)
Definition total (mu : iface -> Z) (l : list iface) : Z :=
  fold_right (fun v acc => mu v + acc) 0 l.

(** The number an operand boxes, as the type assertion [i.(float64)] of the
    package comment reads it; here on integers, and [0] off them. *)
Definition value (v : iface) : Z :=
  match v with
  | Int z => z
  | _ => 0
  end.

(** The commutator of the package comment, [i1 + i2], on every operand. *)
Definition sum_commutator : Commutator :=
  fun i1 i2 => Int (value i1 + value i2).

(** [AggregateOp] called on each operand of a list in turn. *)
Definition aggregate_all (xs : list iface) : M fifo unit :=
  range_for xs AggregateOp.



(** A bound on the steps a run of [PCollapseQueue] still has to take: the
    turns of the loop left, each paid with the slice it may hand out and the
    exit of its goroutine, the operands pending, the goroutines that have
    not exited, and the return of the caller. *)
Definition budget (m : machine fifo) : nat :=
  (match caller m with
   | Spawning _ s _ i => 2 + Z.to_nat (s - i) * (Z.to_nat s + 2)
   | Waiting => 1
   | _ => 0
   end + length (pending (goroutines m)) + live (goroutines m))%nat.
(** * Sequential methods on the first-in first-out Commuter *)

(** Unfolds the methods of the first-in first-out Commuter and the monad
    down to records and lists. *)
Ltac run_fifo :=
  unfold Dequeue, AggregateOp, bind, ret, throw; cbn;
  unfold fifo_Enqueue, fifo_Queue, fifo_QueueLength, fifo_COp, fifo_Push,
    fifo_Pop, fifo_EmptyQueue, fifo_GetQueueLength, record_call, bind, ret;
  cbn.

Lemma Dequeue_cons v rest lg :
  Dequeue {| queue := v :: rest; log := lg |} =
  Returned tt {| queue := rest;
                 log := lg ++ [CallPop (S (length rest)); CallCOp v] |}.
Proof. run_fifo. now rewrite <- app_assoc. Qed.

Lemma Dequeue_nil lg :
  Dequeue {| queue := []; log := lg |} =
  Panicked EmptyQueueError {| queue := []; log := lg |}.
Proof. reflexivity. Qed.

Lemma cop_args_app e1 e2 : cop_args (e1 ++ e2) = cop_args e1 ++ cop_args e2.
Proof. unfold cop_args. now rewrite flat_map_app. Qed.

Lemma pop_lens_app e1 e2 : pop_lens (e1 ++ e2) = pop_lens e1 ++ pop_lens e2.
Proof. unfold pop_lens. now rewrite flat_map_app. Qed.

Lemma cop_args_dequeue_events p k : cop_args (dequeue_events p k) = p.
Proof.
  unfold cop_args. induction p as [|v p IH]; cbn; [reflexivity | now rewrite IH].
Qed.

Lemma pop_lens_dequeue_events p k :
  Forall (fun n => (k < n)%nat) (pop_lens (dequeue_events p k)).
Proof.
  unfold pop_lens. induction p as [|v p IH]; cbn; constructor; [lia | exact IH].
Qed.

Lemma CompressQueue_step fuel d (c : fifo) :
  Commuter_CompressQueue (S fuel) d c =
  if d <? queue_len c
  then match Dequeue c with
       | Returned _ c' => Commuter_CompressQueue fuel d c'
       | Panicked p c' => Panicked p c'
       | OutOfFuel c' => OutOfFuel c'
       end
  else Returned tt c.
Proof.
  unfold Commuter_CompressQueue, queue_len. cbn [while].
  unfold bind at 1 2. cbn.
  unfold fifo_QueueLength, fifo_GetQueueLength, ret.
  destruct (d <? Z.of_nat (length (queue c))); reflexivity.
Qed.

Lemma CompressQueue_noop fuel d c :
  queue_len c <= d ->
  Commuter_CompressQueue (S fuel) d c = Returned tt c.
Proof.
  intros Hle. rewrite CompressQueue_step.
  destruct (d <? queue_len c) eqn:E; [lia | reflexivity].
Qed.

Lemma CompressQueue_drain p : forall rest lg fuel,
  (length p < fuel)%nat ->
  Commuter_CompressQueue fuel (Z.of_nat (length rest))
    {| queue := p ++ rest; log := lg |} =
  Returned tt {| queue := rest;
                 log := lg ++ dequeue_events p (length rest) |}.
Proof.
  induction p as [|v p IH]; intros rest lg fuel Hfuel;
    (destruct fuel as [|fuel]; [cbn in Hfuel; lia|]).
  - rewrite CompressQueue_noop by (unfold queue_len; cbn; lia).
    cbn. now rewrite app_nil_r.
  - rewrite CompressQueue_step. unfold queue_len. cbn [queue].
    replace (Z.of_nat (length rest) <? Z.of_nat (length ((v :: p) ++ rest)))
      with true
      by (symmetry; apply Z.ltb_lt; rewrite length_app; cbn; lia).
    cbn [app]. rewrite Dequeue_cons, IH by (cbn in Hfuel; lia).
    rewrite <- app_assoc. cbn [app dequeue_events length].
    rewrite length_app. reflexivity.
Qed.

(** ** AggregateOp *)

(** C8.  For every operand [i], [AggregateOp i] appends [i] to the tail of
    the queue: the length grows by exactly one, the operands queued before
    are unchanged, and [COp] is not called. *)
Theorem AggregateOp_appends_without_COp (c : fifo) (i : iface) :
  exists c',
    AggregateOp i c = Returned tt c' /\
    queue c' = queue c ++ [i] /\
    queue_len c' = queue_len c + 1 /\
    firstn (length (queue c)) (queue c') = queue c /\
    log c' = log c ++ [CallPush i] /\
    cop_args (log c') = cop_args (log c).
Proof.
  eexists. split; [run_fifo; reflexivity|]. cbn.
  repeat split.
  - unfold queue_len; cbn. rewrite length_app; cbn. lia.
  - rewrite firstn_app, firstn_all, Nat.sub_diag. cbn. apply app_nil_r.
  - rewrite cop_args_app. cbn. apply app_nil_r.
Qed.

(** ** CollapseQueue *)

Lemma range_for_COp_const (v : iface) (q : list iface) : forall c : fifo,
  range_for q (fun _ => COp v) c =
  Returned tt {| queue := queue c;
                 log := log c ++ repeat (CallCOp v) (length q) |}.
Proof.
  induction q as [|x q IH]; intros [cq lg]; cbn.
  - unfold ret. now rewrite app_nil_r.
  - unfold bind. cbn. unfold fifo_COp, record_call. cbn.
    rewrite IH. cbn. now rewrite <- app_assoc.
Qed.

Lemma CollapseQueue_fifo (c : fifo) :
  CollapseQueue c =
  Returned tt
    {| queue := [];
       log := log c ++ CallEmptyQueue ::
                repeat (CallCOp (Slice (queue c))) (length (queue c)) |}.
Proof.
  unfold CollapseQueue, bind. cbn. unfold fifo_EmptyQueue, record_call.
  rewrite range_for_COp_const. cbn. now rewrite <- app_assoc.
Qed.

(** C2, at the backlog [3, 4, 5].  [CollapseQueue] empties the queue and
    calls [COp] three times, each time with the whole detached slice and
    never with one of its operands. *)
Theorem CollapseQueue_passes_whole_slice :
  let q := [Int 3; Int 4; Int 5] in
  exists c',
    CollapseQueue {| queue := q; log := [] |} = Returned tt c' /\
    queue c' = [] /\
    cop_args (log c') = [Slice q; Slice q; Slice q] /\
    cop_args (log c') <> q.
Proof.
  cbv zeta. eexists. split; [apply CollapseQueue_fifo|]. cbn.
  repeat split. discriminate.
Qed.

(** ** The commutator-driven compressor *)

Ltac run_round :=
  unfold merge_round, promoted, bind; cbn;
  unfold fifo_Pop, fifo_Push, record_call; cbn.

Lemma merge_round_pair (f : Commutator) a b rest lg :
  merge_round {| commuter := {| queue := a :: b :: rest; log := lg |};
                 commutator := f |} =
  Returned tt
    {| commuter :=
         {| queue := rest ++ [f a b];
            log := lg ++ [CallPop (S (S (length rest)));
                          CallPop (S (length rest));
                          CallPush (f a b)] |};
       commutator := f |}.
Proof. run_round. now rewrite <- !app_assoc. Qed.

Lemma merge_round_no_COp (cc : CommuterWithCommutator fifo) :
  cop_args (log (commuter (final_state (merge_round cc)))) =
  cop_args (log (commuter cc)).
Proof.
  destruct cc as [[q lg] f]. destruct q as [|a [|b rest]].
  - reflexivity.
  - run_round. rewrite cop_args_app. cbn. apply app_nil_r.
  - rewrite merge_round_pair. cbn. rewrite cop_args_app. cbn. apply app_nil_r.
Qed.

Lemma for_from_rounds_no_COp n : forall i (cc : CommuterWithCommutator fifo),
  cop_args (log (commuter (final_state
    (for_from n i (fun _ => merge_round) cc)))) =
  cop_args (log (commuter cc)).
Proof.
  induction n as [|n IH]; intros i cc; cbn; [reflexivity|].
  unfold bind. pose proof (merge_round_no_COp cc) as Hr.
  destruct (merge_round cc) as [[] cc'|p cc'|cc']; cbn in *;
    [rewrite IH|..]; exact Hr.
Qed.

Lemma for_from_snoc {S} (body : M S unit) n : forall i s,
  for_from (Datatypes.S n) i (fun _ => body) s =
  (for_from n i (fun _ => body) ;;; body) s.
Proof.
  induction n as [|n IH]; intros i s.
  - cbn. unfold bind, ret.
    destruct (body s) as [[] s'|p s'|s']; reflexivity.
  - change (for_from (Datatypes.S (Datatypes.S n)) i (fun _ => body) s)
      with ((body ;;; for_from (Datatypes.S n) (i + 1) (fun _ => body)) s).
    change (for_from (Datatypes.S n) i (fun _ => body))
      with (body ;;; for_from n (i + 1) (fun _ => body)).
    unfold bind.
    destruct (body s) as [[] s'|p s'|s']; try reflexivity.
    rewrite IH. reflexivity.
Qed.

Lemma for_from_rounds_shrink n : forall i (cc : CommuterWithCommutator fifo),
  (2 * n <= length (queue (commuter cc)))%nat ->
  exists cc',
    for_from n i (fun _ => merge_round) cc = Returned tt cc' /\
    commutator cc' = commutator cc /\
    (length (queue (commuter cc')) + n = length (queue (commuter cc)))%nat.
Proof.
  induction n as [|n IH]; intros i cc Hlen.
  - exists cc. cbn. repeat split. lia.
  - destruct cc as [[q lg] f]. cbn in Hlen.
    destruct q as [|a [|b rest]]; cbn in Hlen; try lia.
    cbn [for_from]. unfold bind. rewrite merge_round_pair.
    destruct (IH (i + 1)
      {| commuter := {| queue := rest ++ [f a b];
                        log := lg ++ [CallPop (S (S (length rest)));
                                      CallPop (S (length rest));
                                      CallPush (f a b)] |};
         commutator := f |}) as (cc' & Hrun & Hf & Hl).
    { cbn. rewrite length_app. cbn. lia. }
    exists cc'. split; [exact Hrun|]. split; [exact Hf|].
    cbn in *. rewrite length_app in Hl. cbn in Hl. lia.
Qed.

Lemma for_from_index_irrelevant {S} (body : M S unit) n : forall i j,
  for_from n i (fun _ => body) = for_from n j (fun _ => body).
Proof.
  induction n as [|n IH]; intros i j; cbn; [reflexivity|].
  now rewrite (IH (i + 1) (j + 1)).
Qed.

Lemma CompressQueue_rounds_shrink (cc : CommuterWithCommutator fifo) (k : Z) :
  0 <= k ->
  2 * k <= queue_len (commuter cc) ->
  exists cc',
    CommuterWithCommutator_CompressQueue k cc = Returned tt cc' /\
    commutator cc' = commutator cc /\
    queue_len (commuter cc') = queue_len (commuter cc) - k.
Proof.
  intros Hk Hlen. unfold queue_len in *.
  destruct (for_from_rounds_shrink (Z.to_nat k) 0 cc) as (cc' & Hrun & Hf & Hl);
    [lia|].
  exists cc'. repeat split; [exact Hrun | exact Hf | lia].
Qed.

(** C6.  On a queue of initial length [L] and for [numOps] rounds with
    [L >= 2 * numOps], every round of [CompressQueue numOps] pops two
    operands, pushes their merge and so shortens the queue by exactly one;
    after the [numOps] rounds the length is [L - numOps]. *)
Theorem compressor_shrink_law (cc : CommuterWithCommutator fifo) (numOps : Z) :
  0 <= numOps ->
  2 * numOps <= queue_len (commuter cc) ->
  (forall k, 0 <= k < numOps ->
     exists ck ck' i1 i2 n,
       CommuterWithCommutator_CompressQueue k cc = Returned tt ck /\
       merge_round ck = Returned tt ck' /\
       CommuterWithCommutator_CompressQueue (k + 1) cc = Returned tt ck' /\
       log (commuter ck') =
         log (commuter ck) ++
           [CallPop (S n); CallPop n; CallPush (commutator cc i1 i2)] /\
       queue_len (commuter ck') = queue_len (commuter ck) - 1) /\
  exists cc',
    CommuterWithCommutator_CompressQueue numOps cc = Returned tt cc' /\
    queue_len (commuter cc') = queue_len (commuter cc) - numOps.
Proof.
  intros Hn Hlen. split.
  - intros k Hk.
    destruct (CompressQueue_rounds_shrink cc k) as (ck & Hrun & Hf & Hl);
      [lia | lia |].
    destruct ck as [[q lg] f]. cbn in Hf. subst f.
    unfold queue_len in Hl, Hlen. cbn in Hl.
    destruct q as [|a [|b rest]]; cbn in Hl; try lia.
    eexists _, _, a, b, (S (length rest)).
    split; [exact Hrun|]. split; [apply merge_round_pair|].
    split; [|split].
    + unfold CommuterWithCommutator_CompressQueue, for_upto in *.
      replace (Z.to_nat (k + 1)) with (S (Z.to_nat k)) by lia.
      rewrite for_from_snoc. unfold bind at 1. rewrite Hrun.
      apply merge_round_pair.
    + reflexivity.
    + unfold queue_len. cbn [commuter queue].
      rewrite length_app. cbn [length]. lia.
  - destruct (CompressQueue_rounds_shrink cc numOps) as (cc' & Hrun & _ & Hl);
      [lia | lia |].
    exists cc'. split; assumption.
Qed.

Lemma compressor_shrink_law_witness :
  let cc := {| commuter := {| queue := [Int 3; Int 4; Int 5; Int 6]; log := [] |};
               commutator := fun _ _ => Nil |} in
  exists cc',
    CommuterWithCommutator_CompressQueue 2 cc = Returned tt cc' /\
    queue_len (commuter cc') = queue_len (commuter cc) - 2.
Proof.
  cbv zeta.
  apply (compressor_shrink_law
           {| commuter := {| queue := [Int 3; Int 4; Int 5; Int 6]; log := [] |};
              commutator := fun _ _ => Nil |} 2);
    [lia | vm_compute; discriminate].
Defined.

(** C9.  A round that starts on a queue of at least two operands pops the
    two oldest, [a] then [b], and pushes [Commutator a b], first-popped
    first, onto the tail; this is what the first of the [numOps] rounds of
    [CompressQueue] does, and no number of rounds, on any queue, calls
    [COp]. *)
Theorem compression_round_merges_oldest_pair
    (f : Commutator) (a b : iface) (rest : list iface) (lg : list event)
    (numOps : Z) :
  1 <= numOps ->
  let cc := {| commuter := {| queue := a :: b :: rest; log := lg |};
               commutator := f |} in
  let cc1 := {| commuter :=
                  {| queue := rest ++ [f a b];
                     log := lg ++ [CallPop (S (S (length rest)));
                                   CallPop (S (length rest));
                                   CallPush (f a b)] |};
                commutator := f |} in
  merge_round cc = Returned tt cc1 /\
  CommuterWithCommutator_CompressQueue numOps cc =
    CommuterWithCommutator_CompressQueue (numOps - 1) cc1 /\
  forall (n : Z) (cc0 : CommuterWithCommutator fifo),
    cop_args (log (commuter (final_state
      (CommuterWithCommutator_CompressQueue n cc0)))) =
    cop_args (log (commuter cc0)).
Proof.
  intros Hn cc cc1. split; [apply merge_round_pair|]. split.
  - unfold CommuterWithCommutator_CompressQueue, for_upto.
    replace (Z.to_nat numOps) with (S (Z.to_nat (numOps - 1))) by lia.
    cbn [for_from]. unfold bind at 1. subst cc. rewrite merge_round_pair.
    now rewrite (for_from_index_irrelevant merge_round _ (0 + 1) 0).
  - intros n cc0. apply for_from_rounds_no_COp.
Qed.

Lemma compression_round_merges_oldest_pair_witness :
  let f := fun x y => Slice [x; y] in
  merge_round {| commuter := {| queue := [Int 3; Int 4; Int 5]; log := [] |};
                 commutator := f |} =
  Returned tt
    {| commuter := {| queue := [Int 5; Slice [Int 3; Int 4]];
                      log := [CallPop 3; CallPop 2;
                              CallPush (Slice [Int 3; Int 4])] |};
       commutator := f |}.
Proof.
  cbv zeta.
  apply (compression_round_merges_oldest_pair
           (fun x y => Slice [x; y]) (Int 3) (Int 4) [Int 5] [] 1).
  lia.
Defined.

(** The second scenario of the specification: two rounds on [3, 4, 5, 6]
    under addition leave [7, 11]. *)
Example CompressQueue_two_rounds :
  exists lg,
    CommuterWithCommutator_CompressQueue 2
      {| commuter := {| queue := [Int 3; Int 4; Int 5; Int 6]; log := [] |};
         commutator := add_commutator |} =
    Returned tt {| commuter := {| queue := [Int 7; Int 11]; log := lg |};
                   commutator := add_commutator |}.
Proof. eexists. reflexivity. Qed.

(** A round on a queue of one operand pops it and then pops the empty
    queue. *)
Example merge_round_one_operand :
  merge_round {| commuter := {| queue := [Int 3]; log := [] |};
                 commutator := add_commutator |} =
  Panicked EmptyQueueError
    {| commuter := {| queue := []; log := [CallPop 1] |};
       commutator := add_commutator |}.
Proof. reflexivity. Qed.

(** ** Sequential compression down to a length *)

Lemma queue_len_nonneg (c : fifo) : 0 <= queue_len c.
Proof. unfold queue_len. lia. Qed.

(** C5, as stated, fails at a negative target: from the one-operand queue
    and [desiredLength = -1] the loop dequeues the operand, finds the length
    [0] still above the target and pops the empty queue. *)
Lemma CompressQueue_negative_target_pops_empty :
  let c := {| queue := [Int 1]; log := [] |} in
  Commuter_CompressQueue 2 (-1) c =
    Panicked EmptyQueueError
      {| queue := []; log := [CallPop 1; CallCOp (Int 1)] |} /\
  ~ compression_length_law c (-1).
Proof.
  cbv zeta. split; [reflexivity|].
  intros (fuel & c' & _ & Hgt & _).
  pose proof (queue_len_nonneg c') as Hnn.
  assert (H : queue_len c' <= -1) by (apply Hgt; vm_compute; reflexivity).
  lia.
Qed.

(** What the loop leaves of a queue: the operands beyond the first
    [length - desiredLength]. *)
Lemma CompressQueue_enough_fuel (c : fifo) (desiredLength : Z) (fuel : nat) :
  0 <= desiredLength ->
  (length (queue c) < fuel)%nat ->
  let k := (length (queue c) - Z.to_nat desiredLength)%nat in
  Commuter_CompressQueue fuel desiredLength c =
  Returned tt
    (if desiredLength <? queue_len c
     then {| queue := skipn k (queue c);
             log := log c ++ dequeue_events (firstn k (queue c))
                               (length (skipn k (queue c))) |}
     else c).
Proof.
  intros Hd Hfuel k. destruct c as [q lg]. unfold queue_len.
  cbn [queue log] in *.
  destruct (desiredLength <? Z.of_nat (length q)) eqn:E.
  - apply Z.ltb_lt in E.
    assert (Hrest : Z.of_nat (length (skipn k q)) = desiredLength)
      by (rewrite length_skipn; subst k; lia).
    pose proof (CompressQueue_drain (firstn k q) (skipn k q) lg fuel) as Hrun.
    rewrite firstn_skipn, Hrest in Hrun.
    apply Hrun. rewrite length_firstn. lia.
  - apply Z.ltb_ge in E. destruct fuel as [|fuel]; [lia|].
    apply CompressQueue_noop. unfold queue_len. cbn. lia.
Qed.

(** C5, amended.  For every queue state and every [desiredLength >= 0],
    [CompressQueue desiredLength] returns; started above the target it
    dequeues the oldest operands in order, each with one pop and one [COp],
    and leaves exactly [desiredLength] operands; started at or below the
    target it changes nothing. *)
Theorem CompressQueue_length_law (c : fifo) (desiredLength : Z) (fuel : nat) :
  0 <= desiredLength ->
  (length (queue c) < fuel)%nat ->
  exists c',
    Commuter_CompressQueue fuel desiredLength c = Returned tt c' /\
    (desiredLength < queue_len c ->
       queue_len c' <= desiredLength /\
       queue_len c' = desiredLength /\
       exists p,
         queue c = p ++ queue c' /\
         log c' = log c ++ dequeue_events p (length (queue c')) /\
         cop_args (dequeue_events p (length (queue c'))) = p) /\
    (queue_len c <= desiredLength -> c' = c).
Proof.
  intros Hd Hfuel.
  rewrite (CompressQueue_enough_fuel c desiredLength fuel Hd Hfuel).
  eexists. split; [reflexivity|].
  destruct (desiredLength <? queue_len c) eqn:E.
  - apply Z.ltb_lt in E. split; [|lia]. intros _.
    set (k := (length (queue c) - Z.to_nat desiredLength)%nat).
    assert (Hrest : Z.of_nat (length (skipn k (queue c))) = desiredLength)
      by (unfold queue_len in E; rewrite length_skipn; subst k; lia).
    unfold queue_len. cbn [queue log].
    split; [lia|]. split; [exact Hrest|].
    exists (firstn k (queue c)). split; [now rewrite firstn_skipn|].
    split; [reflexivity | apply cop_args_dequeue_events].
  - apply Z.ltb_ge in E. split; [lia | reflexivity].
Qed.

Lemma CompressQueue_length_law_witness :
  exists c',
    Commuter_CompressQueue 4 1 {| queue := [Int 3; Int 4; Int 5]; log := [] |} =
      Returned tt c'.
Proof.
  destruct (CompressQueue_length_law
              {| queue := [Int 3; Int 4; Int 5]; log := [] |} 1 4)
    as (c' & Hrun & _); [lia | cbn; lia |].
  exists c'. exact Hrun.
Defined.

(** Whatever the fuel, a non-negative target keeps the loop from popping an
    empty queue: every pop finds more than [desiredLength] operands and the
    run does not panic. *)
Lemma CompressQueue_pops_above_target fuel d : forall c : fifo,
  0 <= d ->
  exists evs,
    log (final_state (Commuter_CompressQueue fuel d c)) = log c ++ evs /\
    Forall (fun n => d < Z.of_nat n) (pop_lens evs) /\
    forall p c', Commuter_CompressQueue fuel d c <> Panicked p c'.
Proof.
  induction fuel as [|fuel IH]; intros c Hd.
  - exists []. cbn. rewrite app_nil_r. repeat split; [constructor | discriminate].
  - rewrite CompressQueue_step. destruct (d <? queue_len c) eqn:E.
    + apply Z.ltb_lt in E. destruct c as [[|v rest] lg];
        unfold queue_len in E; cbn [queue length] in E; [cbn in E; lia|].
      rewrite Dequeue_cons.
      destruct (IH {| queue := rest;
                      log := lg ++ [CallPop (S (length rest)); CallCOp v] |} Hd)
        as (evs & Hlog & Hpops & Hnp).
      exists (CallPop (S (length rest)) :: CallCOp v :: evs).
      split; [|split].
      * rewrite Hlog. cbn [log]. now rewrite <- app_assoc.
      * cbn. constructor; [exact E | exact Hpops].
      * exact Hnp.
    + exists []. cbn. rewrite app_nil_r.
      repeat split; [constructor | discriminate].
Qed.

(** C10.  For every [desiredLength >= 0], sequential [CompressQueue] calls
    [Dequeue], and hence [Pop], only on a queue longer than [desiredLength]:
    every pop of the run finds more than [desiredLength >= 0] operands, the
    run never panics on an empty queue, and with fuel above the queue length
    it returns. *)
Theorem CompressQueue_never_pops_empty (c : fifo) (desiredLength : Z) (fuel : nat) :
  0 <= desiredLength ->
  (exists evs,
     log (final_state (Commuter_CompressQueue fuel desiredLength c)) =
       log c ++ evs /\
     Forall (fun n => desiredLength < Z.of_nat n /\ (0 < n)%nat) (pop_lens evs)) /\
  (forall p c', Commuter_CompressQueue fuel desiredLength c <> Panicked p c') /\
  ((length (queue c) < fuel)%nat ->
   exists c', Commuter_CompressQueue fuel desiredLength c = Returned tt c').
Proof.
  intros Hd.
  destruct (CompressQueue_pops_above_target fuel desiredLength c Hd)
    as (evs & Hlog & Hpops & Hnp).
  split; [|split].
  - exists evs. split; [exact Hlog|].
    eapply Forall_impl; [|exact Hpops]. cbn. intros n Hn. lia.
  - exact Hnp.
  - intros Hfuel.
    eexists. exact (CompressQueue_enough_fuel c desiredLength fuel Hd Hfuel).
Qed.

(** * Goroutine-based drains *)

(** ** Pools of goroutines *)

Lemma pending_app gs1 gs2 : pending (gs1 ++ gs2) = pending gs1 ++ pending gs2.
Proof. unfold pending. apply flat_map_app. Qed.

Lemma live_app gs1 gs2 : live (gs1 ++ gs2) = (live gs1 + live gs2)%nat.
Proof. unfold live. now rewrite filter_app, length_app. Qed.

Lemma update_length {A} (x : A) l : forall k, length (update k x l) = length l.
Proof.
  induction l as [|h t IH]; intros [|k]; cbn; try reflexivity.
  now rewrite IH.
Qed.

Lemma update_Forall {A} (P : A -> Prop) (x : A) l : forall k,
  Forall P l -> P x -> Forall P (update k x l).
Proof.
  induction l as [|h t IH]; intros [|k] Hl Hx; cbn; try assumption;
    inversion Hl; subst; constructor; auto.
Qed.

Lemma nth_error_Forall {A} (P : A -> Prop) l : forall k x,
  Forall P l -> nth_error l k = Some x -> P x.
Proof.
  induction l as [|h t IH]; intros [|k] x Hl Hk; cbn in Hk; try discriminate;
    inversion Hl; subst.
  - now inversion Hk; subst.
  - eauto.
Qed.

(** A drain worker that takes the next operand of its slice. *)
Lemma pending_take gs : forall k v rest j,
  nth_error gs k = Some (Draining (v :: rest) j) ->
  Permutation (pending gs) (v :: pending (update k (Draining rest j) gs)) /\
  live (update k (Draining rest j) gs) = live gs.
Proof.
  induction gs as [|g gs IH]; intros [|k] v rest j Hk; cbn in Hk;
    try discriminate.
  - inversion Hk; subst. cbn. split; reflexivity.
  - destruct (IH k v rest j Hk) as [Hp Hl].
    cbn [update]. unfold pending, live in *. cbn [flat_map filter].
    split.
    + rewrite Hp. symmetry. apply Permutation_middle.
    + destruct (is_live g); cbn [length]; now rewrite Hl.
Qed.

(** A drain worker that reaches the end of its slice and exits. *)
Lemma pending_exit gs : forall k j,
  nth_error gs k = Some (Draining [] j) ->
  pending (update k Exited gs) = pending gs /\
  live gs = S (live (update k Exited gs)).
Proof.
  induction gs as [|g gs IH]; intros [|k] j Hk; cbn in Hk; try discriminate.
  - inversion Hk; subst. cbn. split; reflexivity.
  - destruct (IH k j Hk) as [Hp Hl].
    cbn [update]. unfold pending, live in *. cbn [flat_map filter].
    split.
    + now rewrite Hp.
    + destruct (is_live g); cbn [length]; now rewrite Hl.
Qed.

Lemma slices_upto_S s q n :
  slices_upto s q (S n) = slices_upto s q n ++ worker_slice s q n.
Proof.
  unfold slices_upto. rewrite seq_S, flat_map_app. cbn. now rewrite app_nil_r.
Qed.

Lemma cop_args_snoc_COp lg v : cop_args (lg ++ [CallCOp v]) = cop_args lg ++ [v].
Proof. now rewrite cop_args_app. Qed.

(** ** The invariant of a run of PCollapseQueue *)

Lemma goroutine_step_drain_inv join s q base k (m : machine fifo) :
  drain_inv join s q base m ->
  drain_inv join s q base (goroutine_step k m).
Proof.
  intros (n & Hn & Hlen & Hall & Hperm & Hc).
  unfold goroutine_step.
  destruct (nth_error (goroutines m) k) as [[[|v rest] j|j numOps pc|]|] eqn:Ek.
  - (* the worker has ranged over its whole slice *)
    assert (j = join) by exact (nth_error_Forall _ _ _ _ Hall Ek). subst j.
    destruct (pending_exit _ _ _ Ek) as [Hp Hl].
    exists n. split; [exact Hn|].
    assert (Hgs : forall m0 : machine fifo, goroutines m0 = goroutines m ->
                  goroutines (set_goroutine k Exited m0) =
                  update k Exited (goroutines m))
      by (intros m0 E; cbn; now rewrite E).
    destruct join.
    + rewrite (Hgs (add_wg (-1) m) eq_refl).
      split; [now rewrite update_length|].
      split; [apply update_Forall; [exact Hall | exact I]|].
      cbn [set_goroutine add_wg shared caller waits wg]. rewrite Hp.
      split; [exact Hperm|].
      destruct (caller m); try exact Hc.
      * destruct Hc as (? & ? & ? & ? & ? & Hwg).
        repeat split; try assumption. intros _. rewrite (Hwg eq_refl). lia.
      * destruct Hc as (? & ? & ? & Hwg). repeat split; try assumption. lia.
      * destruct Hc as (? & ? & ? & Hz). lia.
    + rewrite (Hgs m eq_refl).
      split; [now rewrite update_length|].
      split; [apply update_Forall; [exact Hall | exact I]|].
      cbn [set_goroutine shared caller waits wg]. rewrite Hp.
      split; [exact Hperm|].
      destruct (caller m); try exact Hc.
      * destruct Hc as (? & ? & ? & ? & ? & Hwg).
        repeat split; try assumption. discriminate.
      * destruct Hc as (? & _). discriminate.
  - (* the worker applies the next operand of its slice *)
    assert (j = join) by exact (nth_error_Forall _ _ _ _ Hall Ek). subst j.
    destruct (pending_take _ _ _ _ _ Ek) as [Hp Hl].
    exists n. split; [exact Hn|].
    cbn. unfold fifo_COp, record_call. cbn.
    split; [now rewrite update_length|].
    split; [apply update_Forall; [exact Hall | reflexivity]|].
    split.
    + rewrite cop_args_snoc_COp, <- app_assoc. cbn [app].
      rewrite <- Hperm, Hp. reflexivity.
    + unfold live in *. rewrite Hl. exact Hc.
  - exfalso. exact (nth_error_Forall _ _ _ _ Hall Ek).
  - exists n. auto.
  - exists n. auto.
Qed.

Lemma caller_step_drain_inv join s q base (m : machine fifo) :
  drain_inv join s q base m ->
  drain_inv join s q base (caller_step m).
Proof.
  intros (n & Hn & Hlen & Hall & Hperm & Hc).
  unfold caller_step. destruct (caller m) as [j s' q' i| | | | |] eqn:Ec;
    try (exists n; rewrite ?Ec; now auto).
  - destruct Hc as (-> & -> & -> & -> & Hw & Hwg).
    destruct (Z.of_nat n <? s) eqn:E.
    + apply Z.ltb_lt in E.
      destruct (slice_expr q (wrap64 (Z.of_nat n * s))
                  (wrap64 ((Z.of_nat n + 1) * s))) as [sl|] eqn:Es.
      * exists (S n). split; [lia|].
        assert (Hsl : worker_slice s q n = [sl])
          by (unfold worker_slice; now rewrite Es).
        destruct join;
          cbn [set_caller spawn add_wg goroutines shared caller waits wg];
          rewrite length_app, pending_app, slices_upto_S, Hsl, concat_app;
          cbn [concat length];
          change (pending [Draining sl true]) with (sl ++ []);
          change (pending [Draining sl false]) with (sl ++ []);
          rewrite !app_nil_r, !app_assoc.
        all: split; [lia|].
        all: split; [apply Forall_app; split;
                       [exact Hall | constructor; [reflexivity | constructor]]|].
        all: split; [apply Permutation_app_tail; exact Hperm|].
        all: repeat split; try lia; try assumption.
        intros _. rewrite live_app, (Hwg eq_refl). cbn [live filter is_live length]. lia.
      * exists n. split; [exact Hn|].
        destruct join; cbn; repeat split; try assumption; lia.
    + apply Z.ltb_ge in E. exists n. split; [exact Hn|].
      destruct join; cbn; repeat split; try assumption; try lia.
      now apply Hwg.
  - destruct Hc as (Hj & Hs & Hw & Hwg). subst join.
    destruct (wg m =? 0) eqn:E.
    + apply Z.eqb_eq in E. exists n.
      cbn [wait_returns goroutines shared caller waits wg]. rewrite Hw.
      repeat split; try assumption; lia.
    + exists n. rewrite Ec. repeat split; assumption.
Qed.

Lemma step_drain_inv join s q base t (m : machine fifo) :
  drain_inv join s q base m ->
  drain_inv join s q base (step t m).
Proof.
  intros Hinv. unfold step.
  destruct (caller m); try exact Hinv;
    (destruct t; [now apply caller_step_drain_inv
                 | now apply goroutine_step_drain_inv]).
Qed.

Lemma run_drain_inv join s q base sched : forall m : machine fifo,
  drain_inv join s q base m ->
  drain_inv join s q base (run sched m).
Proof.
  induction sched as [|t sched IH]; intros m Hinv; cbn; [exact Hinv|].
  apply IH. now apply step_drain_inv.
Qed.

(** ** Entering PCollapseQueue and CCompressQueue *)

Lemma PCollapseQueue_zero join (c : fifo) :
  PCollapseQueue join 0 c = crashed_at_entry IntegerDivideByZero c.
Proof. reflexivity. Qed.

Lemma PCollapseQueue_start join numWorkers (c : fifo) :
  numWorkers <> 0 ->
  PCollapseQueue join numWorkers c =
  {| shared := {| queue := []; log := log c ++ [CallEmptyQueue] |};
     cells := []; wg := 0; goroutines := [];
     caller := Spawning join (slice_size c numWorkers) (queue c) 0;
     waits := 0 |}.
Proof.
  intros Hn. unfold PCollapseQueue, PCollapseQueue_prologue, int_div, bind.
  cbn. unfold fifo_GetQueueLength.
  destruct (numWorkers =? 0) eqn:E; [apply Z.eqb_eq in E; contradiction|].
  reflexivity.
Qed.

Lemma CCompressQueue_entry desiredLength numWorkers (c : fifo) :
  CCompressQueue desiredLength numWorkers c =
  crashed_at_entry NilPointerDereference c.
Proof. reflexivity. Qed.

Lemma run_crashed sched : forall (m : machine fifo) p,
  caller m = Crashed p -> run sched m = m.
Proof.
  induction sched as [|t sched IH]; intros m p Hc; cbn; [reflexivity|].
  unfold step. rewrite Hc. now apply (IH m p).
Qed.

Lemma run_app sched1 sched2 (m : machine fifo) :
  run (sched1 ++ sched2) m = run sched2 (run sched1 m).
Proof. unfold run. apply fold_left_app. Qed.

Lemma PCollapseQueue_drain_inv join numWorkers (c : fifo) :
  numWorkers <> 0 ->
  drain_inv join (slice_size c numWorkers) (queue c) (cop_args (log c))
    (PCollapseQueue join numWorkers c).
Proof.
  intros Hn. rewrite PCollapseQueue_start by exact Hn.
  exists 0%nat. cbn -[slice_size]. rewrite cop_args_app. cbn -[slice_size].
  repeat split; try lia; try constructor.
  rewrite !app_nil_r. reflexivity.
Qed.

Lemma live_zero_all_exited gs :
  live gs = 0%nat -> Forall (eq Exited) gs /\ pending gs = [].
Proof.
  unfold live, pending. induction gs as [|g gs IH]; cbn; intros Hl.
  - split; constructor.
  - destruct g; cbn in Hl; try discriminate.
    destruct (IH Hl) as [Ha Hp]. split; [constructor; auto | exact Hp].
Qed.

Lemma run_cons t sched (m : machine fifo) :
  run (t :: sched) m = run sched (step t m).
Proof. reflexivity. Qed.

Lemma run_back_caller k : forall m : machine fifo,
  caller m = Back -> run (repeat 0%nat k) m = m.
Proof.
  induction k as [|k IH]; intros m Hc; [reflexivity|].
  cbn [repeat]. rewrite run_cons. unfold step, caller_step. rewrite Hc.
  now apply IH.
Qed.

(** The caller of the variant without WaitGroup runs through its loop and
    returns without ever depending on a goroutine. *)
Lemma caller_only_run r : forall (m : machine fifo) s q i,
  caller m = Spawning false s q i ->
  (Z.to_nat (s - i) <= r)%nat ->
  shared (run (repeat 0%nat (S r)) m) = shared m /\
  (caller (run (repeat 0%nat (S r)) m) = Back \/
   exists p, caller (run (repeat 0%nat (S r)) m) = Crashed p).
Proof.
  induction r as [|r IH]; intros m s q i Hc Hr;
    change (repeat 0%nat (S ?k)) with (0%nat :: repeat 0%nat k);
    rewrite run_cons;
    replace (step 0 m) with (caller_step m) by (unfold step; now rewrite Hc);
    unfold caller_step; rewrite Hc; destruct (i <? s) eqn:E.
  - apply Z.ltb_lt in E. lia.
  - cbn. split; [reflexivity | now left].
  - apply Z.ltb_lt in E.
    destruct (slice_expr q (wrap64 (i * s)) (wrap64 ((i + 1) * s))) as [sl|].
    + destruct (IH (set_caller (Spawning false s q (i + 1))
                      (spawn (Draining sl false) m)) s q (i + 1))
        as [Hs Hcal]; [reflexivity | lia |].
      split; [rewrite Hs; reflexivity | exact Hcal].
    + erewrite run_crashed by reflexivity.
      cbn. split; [reflexivity | right; eauto].
  - rewrite run_back_caller by reflexivity. cbn. split; [reflexivity | now left].
Qed.

(** ** Completion modes *)

(** C7.  [PCollapseQueue] comes in two completion modes.  In the variant
    with the WaitGroup, under every schedule, the call is back only when
    every spawned goroutine has exited, having applied [COp] to each operand
    of its slice: the counter is zero and [wg.Wait()] has returned exactly
    once.  The variant without it never waits: under every schedule it
    never blocks, and run on its own the caller is through (back, or
    panicked in a slice expression) with no [COp] applied and all the
    handed-out operands still pending. *)
Theorem PCollapseQueue_completion_modes (numWorkers : Z) (c : fifo) :
  let s := slice_size c numWorkers in
  (forall sched,
     let m := run sched (PCollapseQueue true numWorkers c) in
     caller m = Back ->
     Forall (eq Exited) (goroutines m) /\
     wg m = 0 /\
     waits m = 1%nat /\
     Permutation (cop_args (log (shared m)))
       (cop_args (log c) ++ concat (slices_upto s (queue c) (Z.to_nat s)))) /\
  (forall sched,
     let m := run sched (PCollapseQueue false numWorkers c) in
     caller m <> Waiting /\ waits m = 0%nat) /\
  (let m := run (repeat 0%nat (S (Z.to_nat s)))
              (PCollapseQueue false numWorkers c) in
   (caller m = Back \/ exists p, caller m = Crashed p) /\
   cop_args (log (shared m)) = cop_args (log c) /\
   exists n,
     Permutation (pending (goroutines m))
       (concat (slices_upto s (queue c) n)) /\
     (caller m = Back -> n = Z.to_nat s)).
Proof.
  intros s. destruct (Z.eq_dec numWorkers 0) as [->|Hn].
  - (* the division panics before anything is spawned *)
    rewrite !PCollapseQueue_zero.
    split; [|split].
    + intros sched m Hback. subst m.
      rewrite (run_crashed sched _ IntegerDivideByZero) in Hback by reflexivity.
      discriminate.
    + intros sched m. subst m.
      rewrite (run_crashed sched _ IntegerDivideByZero) by reflexivity.
      split; [discriminate | reflexivity].
    + rewrite (run_crashed _ _ IntegerDivideByZero) by reflexivity.
      cbn -[slice_size]. split; [right; eauto|]. split; [reflexivity|].
      exists 0%nat. split; [reflexivity | discriminate].
  - split; [|split].
    + intros sched m Hback.
      destruct (run_drain_inv true s (queue c) (cop_args (log c)) sched _
                  (PCollapseQueue_drain_inv true numWorkers c Hn))
        as (n & _ & _ & _ & Hperm & Hc).
      fold m in Hperm, Hc. rewrite Hback in Hc.
      destruct Hc as (-> & Hw & Hz & Hlive).
      destruct (live_zero_all_exited _ Hlive) as [Hex Hp].
      rewrite Hp, app_nil_r in Hperm. auto.
    + intros sched m.
      destruct (run_drain_inv false s (queue c) (cop_args (log c)) sched _
                  (PCollapseQueue_drain_inv false numWorkers c Hn))
        as (n & _ & _ & _ & _ & Hc).
      fold m in Hc. destruct (caller m); try contradiction.
      * destruct Hc as (_ & _ & _ & _ & Hw & _). split; [discriminate | exact Hw].
      * destruct Hc as (Hj & _). discriminate.
      * destruct Hc as (_ & Hw). split; [discriminate | exact Hw].
      * destruct Hc as (_ & _ & Hw). split; [discriminate | exact Hw].
    + intros m.
      destruct (caller_only_run (Z.to_nat s) (PCollapseQueue false numWorkers c)
                  s (queue c) 0) as [Hs Hcal].
      { rewrite PCollapseQueue_start by exact Hn. reflexivity. }
      { lia. }
      fold m in Hs, Hcal.
      assert (Hlog : cop_args (log (shared m)) = cop_args (log c)).
      { rewrite Hs, PCollapseQueue_start by exact Hn. cbn.
        rewrite cop_args_app. cbn. apply app_nil_r. }
      split; [exact Hcal|]. split; [exact Hlog|].
      destruct (run_drain_inv false s (queue c) (cop_args (log c))
                  (repeat 0%nat (S (Z.to_nat s))) _
                  (PCollapseQueue_drain_inv false numWorkers c Hn))
        as (n & _ & _ & _ & Hperm & Hc).
      fold m in Hperm, Hc. exists n. split.
      * rewrite Hlog in Hperm. exact (Permutation_app_inv_l _ _ _ Hperm).
      * intros Hback. rewrite Hback in Hc. tauto.
Qed.

Lemma PCollapseQueue_completion_modes_witness :
  let m := run [0; 0; 0; 0; 1; 1; 1; 1; 2; 2; 2; 2; 3; 3; 3; 3; 0]%nat
             (PCollapseQueue true 3 {| queue := ten_operands; log := [] |}) in
  caller m = Back /\
  Forall (eq Exited) (goroutines m) /\ wg m = 0 /\ waits m = 1%nat.
Proof.
  cbv zeta. split; [reflexivity|].
  destruct (PCollapseQueue_completion_modes 3
              {| queue := ten_operands; log := [] |}) as [Hjoin _].
  destruct (Hjoin [0; 0; 0; 0; 1; 1; 1; 1; 2; 2; 2; 2; 3; 3; 3; 3; 0]%nat
              eq_refl) as (Hex & Hwg & Hw & _).
  auto.
Defined.

(** ** Partition of the backlog *)

(** C1, at ten operands and three workers.  [s] is [10 / 3 = 3]; the loop
    hands out [q[0:3]], [q[3:6]] and [q[6:9]]; under every schedule, in
    either variant, the operand at index 9 is never applied and never even
    pending, and the complete run of the joining variant returns with nine
    of the ten operands applied. *)
Theorem PCollapseQueue_drops_remainder (join : bool) (sched : list nat) :
  let c := {| queue := ten_operands; log := [] |} in
  let m := run sched (PCollapseQueue join 3 c) in
  slices_upto (slice_size c 3) ten_operands 3 =
    [map Int [0; 1; 2]; map Int [3; 4; 5]; map Int [6; 7; 8]] /\
  ~ In (Int 9) (cop_args (log (shared m))) /\
  ~ In (Int 9) (pending (goroutines m)) /\
  let done := run [0; 0; 0; 0; 1; 1; 1; 1; 2; 2; 2; 2; 3; 3; 3; 3; 0]%nat
                (PCollapseQueue true 3 c) in
  caller done = Back /\
  cop_args (log (shared done)) = map Int [0; 1; 2; 3; 4; 5; 6; 7; 8].
Proof.
  intros c m. split; [reflexivity|].
  assert (Hnine : ~ In (Int 9)
            (cop_args (log (shared m)) ++ pending (goroutines m))).
  { destruct (run_drain_inv join (slice_size c 3) (queue c) (cop_args (log c))
                sched _ (PCollapseQueue_drain_inv join 3 c ltac:(lia)))
      as (n & Hn & _ & _ & Hperm & _).
    fold m in Hperm. intros Hin.
    apply (Permutation_in _ Hperm) in Hin.
    change (Z.to_nat (slice_size c 3)) with 3%nat in Hn.
    destruct n as [|[|[|[|n]]]]; [| | | |lia]; vm_compute in Hin;
      intuition discriminate. }
  split; [|split].
  - intros Hin. apply Hnine, in_or_app. now left.
  - intros Hin. apply Hnine, in_or_app. now right.
  - split; reflexivity.
Qed.

(** The loop turns [s] times, not [numWorkers] times.  Two operands and
    two workers: [s = 1], one goroutine, one operand applied. *)
Example PCollapseQueue_two_operands_two_workers :
  let m := run [0; 0; 1; 1; 0]%nat
             (PCollapseQueue true 2 {| queue := [Int 1; Int 2]; log := [] |}) in
  caller m = Back /\ cop_args (log (shared m)) = [Int 1].
Proof. split; reflexivity. Qed.

(** Four operands and one worker: [s = 4], and the second turn slices
    [q[4:8]] out of four operands. *)
Example PCollapseQueue_four_operands_one_worker :
  let m := run [0; 0]%nat
             (PCollapseQueue true 1
                {| queue := [Int 1; Int 2; Int 3; Int 4]; log := [] |}) in
  caller m = Crashed SliceBoundsOutOfRange.
Proof. reflexivity. Qed.

(** ** Worker counts *)

(** C3, as stated, fails: with [numWorkers = 0] the call does not fail with
    [InvalidWorkerCountError], it panics on the division; with a negative
    count it does not fail at all. *)
Lemma PCollapseQueue_no_worker_count_error :
  let c := {| queue := [Int 1; Int 2]; log := [] |} in
  ~ rejects_worker_count c (PCollapseQueue true 0 c) /\
  ~ rejects_worker_count c (PCollapseQueue false 0 c) /\
  caller (PCollapseQueue true 0 c) = Crashed IntegerDivideByZero /\
  caller (run [0; 0]%nat (PCollapseQueue true (-1) c)) = Back.
Proof.
  cbv zeta. repeat split; try reflexivity;
    intros (Hc & _); cbn in Hc; discriminate.
Qed.

Lemma wrap64_small z : - 2 ^ 63 <= z < 2 ^ 63 -> wrap64 z = z.
Proof. intros Hz. unfold wrap64. rewrite Z.mod_small; lia. Qed.

Lemma quot_by_negative a b : 0 <= a -> b < 0 -> - a <= Z.quot a b <= 0.
Proof.
  intros Ha Hb. replace b with (- (- b)) by lia.
  rewrite Z.quot_opp_r by lia. rewrite Z.quot_div_nonneg by lia.
  pose proof (Z.div_pos a (- b) Ha ltac:(lia)).
  pose proof (Z.div_le_upper_bound a (- b) a ltac:(lia) ltac:(nia)).
  lia.
Qed.

Lemma slice_size_negative_workers (c : fifo) numWorkers :
  numWorkers < 0 -> queue_len c < 2 ^ 63 -> slice_size c numWorkers <= 0.
Proof.
  intros Hn Hlen. unfold slice_size.
  pose proof (queue_len_nonneg c) as Hnn.
  pose proof (quot_by_negative (queue_len c) numWorkers Hnn Hn) as Hq.
  rewrite wrap64_small; lia.
Qed.

(** With a slice size that is not positive the loop never turns: nothing is
    spawned and the Commuter is left as the prologue left it. *)
Lemma idle_run join s q (c0 : fifo) sched : forall m : machine fifo,
  s <= 0 ->
  goroutines m = [] -> shared m = c0 -> wg m = 0 ->
  (caller m = Spawning join s q 0 \/ caller m = Waiting \/ caller m = Back) ->
  goroutines (run sched m) = [] /\ shared (run sched m) = c0 /\
  wg (run sched m) = 0 /\
  (caller (run sched m) = Spawning join s q 0 \/
   caller (run sched m) = Waiting \/ caller (run sched m) = Back).
Proof.
  induction sched as [|t sched IH]; intros m Hs Hg Hsh Hwg Hc; [auto|].
  rewrite run_cons. apply IH; try exact Hs;
    unfold step; destruct Hc as [Hc|[Hc|Hc]]; rewrite Hc;
    destruct t as [|k];
    unfold caller_step, goroutine_step; rewrite ?Hc, ?Hg, ?Hwg;
    replace (0 <? s) with false by (symmetry; apply Z.ltb_ge; lia);
    try (destruct k; cbn [nth_error]); cbn; auto;
    destruct join; cbn; auto.
Qed.

(** C3, amended.  [PCollapseQueue], in either variant, has no error for a
    worker count: with [numWorkers = 0] it panics on the integer division
    before it has spawned a goroutine, called [COp] or touched the queue,
    and stays so; with [numWorkers < 0] the slice size is not positive, so
    under every schedule it spawns no goroutine, calls no [COp], does not
    panic, and two more steps of the caller bring the call back. *)
Theorem PCollapseQueue_nonpositive_workers
    (join : bool) (numWorkers : Z) (c : fifo) (sched : list nat) :
  numWorkers <= 0 ->
  queue_len c < 2 ^ 63 ->
  let m := run sched (PCollapseQueue join numWorkers c) in
  goroutines m = [] /\
  cop_args (log (shared m)) = cop_args (log c) /\
  caller m <> Crashed InvalidWorkerCountError /\
  (numWorkers = 0 -> m = crashed_at_entry IntegerDivideByZero c) /\
  (numWorkers < 0 ->
     (forall p, caller m <> Crashed p) /\
     caller (run [0; 0]%nat m) = Back).
Proof.
  intros Hn Hlen m. destruct (Z.eq_dec numWorkers 0) as [->|Hnz].
  - subst m. rewrite PCollapseQueue_zero.
    rewrite (run_crashed sched _ IntegerDivideByZero) by reflexivity.
    cbn. repeat split; try reflexivity; try discriminate; lia.
  - assert (Hneg : numWorkers < 0) by lia.
    pose proof (slice_size_negative_workers c numWorkers Hneg Hlen) as Hs.
    destruct (idle_run join (slice_size c numWorkers) (queue c)
                {| queue := []; log := log c ++ [CallEmptyQueue] |} sched
                (PCollapseQueue join numWorkers c) Hs)
      as (Hg & Hsh & Hwg & Hc);
      try (rewrite PCollapseQueue_start by exact Hnz; cbn -[slice_size]; auto).
    fold m in Hg, Hsh, Hwg, Hc.
    split; [exact Hg|]. split.
    { rewrite Hsh. cbn. rewrite cop_args_app. cbn. apply app_nil_r. }
    split; [destruct Hc as [Hc|[Hc|Hc]]; rewrite Hc; discriminate|].
    split; [lia|]. intros _. split.
    + intros p. destruct Hc as [Hc|[Hc|Hc]]; rewrite Hc; discriminate.
    + assert (Hf : (0 <? slice_size c numWorkers) = false)
        by (apply Z.ltb_ge; lia).
      clearbody m. destruct m as [sh ce w gs ca wa].
      cbn [goroutines shared wg caller] in Hg, Hsh, Hwg, Hc. subst gs sh w.
      rewrite !run_cons. cbn [run fold_left].
      destruct Hc as [Hc|[Hc|Hc]]; subst ca;
        unfold step, caller_step; cbn -[slice_size]; rewrite ?Hf;
        destruct join; reflexivity.
Qed.

Lemma PCollapseQueue_nonpositive_workers_witness :
  let c := {| queue := [Int 1; Int 2]; log := [] |} in
  let m := run [0; 1; 0]%nat (PCollapseQueue true (-1) c) in
  goroutines m = [] /\ cop_args (log (shared m)) = cop_args (log c).
Proof.
  cbv zeta.
  destruct (PCollapseQueue_nonpositive_workers true (-1)
              {| queue := [Int 1; Int 2]; log := [] |} [0; 1; 0]%nat)
    as (Hg & Hl & _); [lia | vm_compute; reflexivity |].
  split; [exact Hg | exact Hl].
Defined.

(** ** CCompressQueue *)

(** C4.  Whatever the queue, the target length and the worker count,
    [CCompressQueue] panics when it stores through the nil [j]: nothing is
    dequeued and the queue is unchanged, and the call is not a no-op but a
    nil dereference, under every schedule.  In particular so on the queue
    [1, 2] with [desiredLength = 5] and two workers. *)
Theorem CCompressQueue_dereferences_nil
    (desiredLength numWorkers : Z) (c : fifo) (sched : list nat) :
  run sched (CCompressQueue desiredLength numWorkers c) =
    crashed_at_entry NilPointerDereference c /\
  caller (run sched (CCompressQueue 5 2 {| queue := [Int 1; Int 2]; log := [] |})) =
    Crashed NilPointerDereference.
Proof.
  rewrite !CCompressQueue_entry.
  rewrite !(run_crashed sched _ NilPointerDereference) by reflexivity.
  split; reflexivity.
Qed.

Lemma CompressQueue_never_pops_empty_witness :
  exists c',
    Commuter_CompressQueue 4 1 {| queue := [Int 3; Int 4; Int 5]; log := [] |} =
      Returned tt c'.
Proof.
  destruct (CompressQueue_never_pops_empty
              {| queue := [Int 3; Int 4; Int 5]; log := [] |} 1 4)
    as (_ & _ & Hret); [lia|].
  apply Hret. cbn. lia.
Defined.

(** * Further properties of the compressor *)

Lemma for_from_add {S} (body : M S unit) a : forall b i s,
  for_from (a + b) i (fun _ => body) s =
  (for_from a i (fun _ => body) ;;; for_from b i (fun _ => body)) s.
Proof.
  induction a as [|a IH]; intros b i s.
  - reflexivity.
  - cbn [Nat.add for_from]. unfold bind.
    destruct (body s) as [[] s'|p s'|s']; try reflexivity.
    rewrite IH. unfold bind.
    now rewrite (for_from_index_irrelevant body b (i + 1) i).
Qed.

Lemma rounds_merge_pairs (f : Commutator) n : forall i q lg,
  (2 * n <= length q)%nat ->
  exists lg',
    for_from n i (fun _ => merge_round)
      {| commuter := {| queue := q; log := lg |}; commutator := f |} =
    Returned tt
      {| commuter :=
           {| queue := skipn (2 * n) q ++ merge_pairs f (firstn (2 * n) q);
              log := lg' |};
         commutator := f |}.
Proof.
  induction n as [|n IH]; intros i q lg Hlen.
  - exists lg. cbn. unfold ret. now rewrite app_nil_r.
  - destruct q as [|a [|b rest]]; cbn [length] in Hlen; try lia.
    cbn [for_from]. unfold bind. rewrite merge_round_pair.
    destruct (IH (i + 1) (rest ++ [f a b])
                (lg ++ [CallPop (S (S (length rest)));
                        CallPop (S (length rest)); CallPush (f a b)]))
      as (lg' & Hrun); [rewrite length_app; cbn; lia|].
    exists lg'. rewrite Hrun.
    replace (2 * S n)%nat with (S (S (2 * n))) by lia.
    cbn [skipn firstn merge_pairs].
    rewrite skipn_app, firstn_app.
    replace (2 * n - length rest)%nat with 0%nat by lia.
    cbn [skipn firstn]. rewrite app_nil_r, <- app_assoc. reflexivity.
Qed.

(** X1.  While the rounds consume original operands only, the compressor pairs
    the oldest operands in order: after [numOps] rounds with
    [2 * numOps <= L] the queue holds the untouched operands followed by the
    merges of the first [2 * numOps], pair by pair. *)
Theorem compressor_pairs_oldest_in_order
    (cc : CommuterWithCommutator fifo) (numOps : Z) :
  0 <= numOps ->
  2 * numOps <= queue_len (commuter cc) ->
  exists cc',
    CommuterWithCommutator_CompressQueue numOps cc = Returned tt cc' /\
    commutator cc' = commutator cc /\
    queue (commuter cc') =
      skipn (Z.to_nat (2 * numOps)) (queue (commuter cc)) ++
      merge_pairs (commutator cc)
        (firstn (Z.to_nat (2 * numOps)) (queue (commuter cc))).
Proof.
  intros Hn Hlen. destruct cc as [[q lg] f]. unfold queue_len in Hlen.
  cbn [commuter queue commutator] in *.
  destruct (rounds_merge_pairs f (Z.to_nat numOps) 0 q lg) as (lg' & Hrun);
    [lia|].
  eexists. split; [exact Hrun|]. split; [reflexivity|].
  cbn [commuter queue].
  replace (Z.to_nat (2 * numOps)) with (2 * Z.to_nat numOps)%nat by lia.
  reflexivity.
Qed.

Lemma compressor_pairs_oldest_in_order_witness :
  exists cc',
    CommuterWithCommutator_CompressQueue 2
      {| commuter := {| queue := [Int 3; Int 4; Int 5; Int 6; Int 7]; log := [] |};
         commutator := sum_commutator |} = Returned tt cc' /\
    queue (commuter cc') = [Int 7; Int 7; Int 11].
Proof.
  destruct (compressor_pairs_oldest_in_order
              {| commuter := {| queue := [Int 3; Int 4; Int 5; Int 6; Int 7];
                                log := [] |};
                 commutator := sum_commutator |} 2)
    as (cc' & Hrun & _ & Hq); [lia | vm_compute; discriminate |].
  exists cc'. split; [exact Hrun | exact Hq].
Defined.

(** Rounds go through as long as two operands are left: fewer rounds than
    operands always succeed. *)
Lemma rounds_below_length n : forall i (cc : CommuterWithCommutator fifo),
  (n = 0 \/ n < length (queue (commuter cc)))%nat ->
  exists cc',
    for_from n i (fun _ => merge_round) cc = Returned tt cc' /\
    commutator cc' = commutator cc /\
    (length (queue (commuter cc')) + n = length (queue (commuter cc)))%nat.
Proof.
  induction n as [|n IH]; intros i cc Hlen.
  - exists cc. cbn. repeat split. lia.
  - destruct cc as [[q lg] f]. cbn [commuter queue] in Hlen.
    destruct q as [|a [|b rest]]; cbn [length] in Hlen; try lia.
    cbn [for_from]. unfold bind. rewrite merge_round_pair.
    destruct (IH (i + 1)
      {| commuter := {| queue := rest ++ [f a b];
                        log := lg ++ [CallPop (S (S (length rest)));
                                      CallPop (S (length rest));
                                      CallPush (f a b)] |};
         commutator := f |}) as (cc' & Hrun & Hf & Hl).
    { cbn [commuter queue]. rewrite length_app. cbn [length]. lia. }
    exists cc'. split; [exact Hrun|]. split; [exact Hf|].
    cbn [commuter queue commutator] in *.
    rewrite length_app in Hl. cbn [length] in *. lia.
Qed.

(** X2.  The compressor needs no more than one operand beyond the number of
    rounds: for every [numOps < L], non-positive ones included, the call
    returns, having shortened the queue by [max numOps 0] and called no
    [COp]. *)
Theorem compressor_succeeds_below_length
    (cc : CommuterWithCommutator fifo) (numOps : Z) :
  numOps < queue_len (commuter cc) ->
  exists cc',
    CommuterWithCommutator_CompressQueue numOps cc = Returned tt cc' /\
    queue_len (commuter cc') = queue_len (commuter cc) - Z.max numOps 0 /\
    cop_args (log (commuter cc')) = cop_args (log (commuter cc)).
Proof.
  intros Hlen. unfold queue_len in *.
  destruct (rounds_below_length (Z.to_nat numOps) 0 cc) as (cc' & Hrun & _ & Hl);
    [lia|].
  exists cc'. split; [exact Hrun|]. split; [lia|].
  pose proof (for_from_rounds_no_COp (Z.to_nat numOps) 0 cc) as Hno.
  unfold CommuterWithCommutator_CompressQueue, for_upto in *.
  now rewrite Hrun in Hno.
Qed.

Lemma compressor_succeeds_below_length_witness :
  exists cc',
    CommuterWithCommutator_CompressQueue 2
      {| commuter := {| queue := [Int 3; Int 4; Int 5]; log := [] |};
         commutator := sum_commutator |} = Returned tt cc' /\
    queue_len (commuter cc') = 1.
Proof.
  destruct (compressor_succeeds_below_length
              {| commuter := {| queue := [Int 3; Int 4; Int 5]; log := [] |};
                 commutator := sum_commutator |} 2)
    as (cc' & Hrun & Hl & _); [vm_compute; reflexivity|].
  exists cc'. split; [exact Hrun | exact Hl].
Defined.

Lemma merge_round_short (f : Commutator) q lg :
  (length q <= 1)%nat ->
  exists lg',
    merge_round {| commuter := {| queue := q; log := lg |}; commutator := f |} =
    Panicked EmptyQueueError
      {| commuter := {| queue := []; log := lg' |}; commutator := f |}.
Proof.
  intros Hlen. destruct q as [|a [|b rest]]; cbn [length] in Hlen; try lia;
    eexists; reflexivity.
Qed.

(** X3.  Asked for as many rounds as there are operands, or more, the compressor
    merges the queue down to one operand, pops it, and panics on the empty
    queue: the call fails with the queue empty, the merged backlog gone, and
    no [COp] called. *)
Theorem compressor_exhausts_queue
    (cc : CommuterWithCommutator fifo) (numOps : Z) :
  0 < numOps ->
  queue_len (commuter cc) <= numOps ->
  exists cc',
    CommuterWithCommutator_CompressQueue numOps cc =
      Panicked EmptyQueueError cc' /\
    queue (commuter cc') = [] /\
    cop_args (log (commuter cc')) = cop_args (log (commuter cc)).
Proof.
  intros Hn Hlen. unfold queue_len in Hlen.
  pose proof (for_from_rounds_no_COp (Z.to_nat numOps) 0 cc) as Hno.
  unfold CommuterWithCommutator_CompressQueue, for_upto.
  assert (Hres : exists cc',
            for_from (Z.to_nat numOps) 0 (fun _ => merge_round) cc =
              Panicked EmptyQueueError cc' /\ queue (commuter cc') = []).
  { set (L := length (queue (commuter cc))) in *.
    assert (Hsplit : exists a k, Z.to_nat numOps = (a + S k)%nat /\
                                 (a = 0 \/ a < L)%nat /\ (L <= a + 1)%nat).
    { exists (L - 1)%nat, (Z.to_nat numOps - (L - 1) - 1)%nat. lia. }
    destruct Hsplit as (a & k & Hnk & Ha & HL).
    rewrite Hnk, for_from_add. unfold bind at 1.
    destruct (rounds_below_length a 0 cc Ha) as (cc1 & Hrun & _ & Hl1).
    rewrite Hrun. cbn [for_from]. unfold bind at 1.
    destruct cc1 as [[q1 lg1] f1]. cbn [commuter queue] in Hl1.
    destruct (merge_round_short f1 q1 lg1) as (lg' & Hshort); [lia|].
    rewrite Hshort. eexists. split; reflexivity. }
  destruct Hres as (cc' & Hres & Hq). rewrite Hres in *.
  exists cc'. split; [reflexivity|]. split; [exact Hq | exact Hno].
Qed.

Lemma compressor_exhausts_queue_witness :
  exists cc',
    CommuterWithCommutator_CompressQueue 3
      {| commuter := {| queue := [Int 3; Int 4; Int 5]; log := [] |};
         commutator := sum_commutator |} = Panicked EmptyQueueError cc' /\
    queue (commuter cc') = [].
Proof.
  destruct (compressor_exhausts_queue
              {| commuter := {| queue := [Int 3; Int 4; Int 5]; log := [] |};
                 commutator := sum_commutator |} 3)
    as (cc' & Hrun & Hq & _); [lia | vm_compute; discriminate |].
  exists cc'. split; [exact Hrun | exact Hq].
Defined.

(** ** What a compression keeps *)

Lemma total_app mu l1 l2 : total mu (l1 ++ l2) = total mu l1 + total mu l2.
Proof.
  unfold total. induction l1 as [|v l1 IH]; cbn; [reflexivity|].
  rewrite IH. lia.
Qed.

Lemma merge_round_total mu (cc cc' : CommuterWithCommutator fifo) :
  (forall a b, mu (commutator cc a b) = mu a + mu b) ->
  merge_round cc = Returned tt cc' ->
  commutator cc' = commutator cc /\
  total mu (queue (commuter cc')) = total mu (queue (commuter cc)).
Proof.
  intros Hadd Hrun. destruct cc as [[q lg] f]. cbn [commutator] in Hadd.
  destruct q as [|a [|b rest]]; try discriminate.
  rewrite merge_round_pair in Hrun. inversion Hrun; subst.
  cbn [commuter queue commutator].
  split; [reflexivity|]. rewrite total_app. unfold total. cbn [fold_right].
  rewrite Hadd. lia.
Qed.

Lemma rounds_preserve_total mu n :
  forall i (cc cc' : CommuterWithCommutator fifo),
  (forall a b, mu (commutator cc a b) = mu a + mu b) ->
  for_from n i (fun _ => merge_round) cc = Returned tt cc' ->
  commutator cc' = commutator cc /\
  total mu (queue (commuter cc')) = total mu (queue (commuter cc)).
Proof.
  induction n as [|n IH]; intros i cc cc' Hadd Hrun.
  - cbn in Hrun. inversion Hrun; subst. split; reflexivity.
  - cbn [for_from] in Hrun. unfold bind in Hrun.
    destruct (merge_round cc) as [[] cc1|p cc1|cc1] eqn:Hr; try discriminate.
    destruct (merge_round_total mu cc cc1 Hadd Hr) as [Hf1 Ht1].
    destruct (IH (i + 1) cc1 cc') as [Hf Ht];
      [rewrite Hf1; exact Hadd | exact Hrun |].
    split; [congruence | lia].
Qed.

(** X4.  Under a commutator that adds up a measure of the operands
    ([mu (Commutator a b) = mu a + mu b]), a compression that returns leaves
    the total measure of the queue as it was: merging loses nothing. *)
Theorem compression_preserves_total
    (mu : iface -> Z) (cc cc' : CommuterWithCommutator fifo) (numOps : Z) :
  (forall a b, mu (commutator cc a b) = mu a + mu b) ->
  CommuterWithCommutator_CompressQueue numOps cc = Returned tt cc' ->
  total mu (queue (commuter cc')) = total mu (queue (commuter cc)).
Proof.
  intros Hadd Hrun.
  exact (proj2 (rounds_preserve_total mu _ _ _ _ Hadd Hrun)).
Qed.

Lemma compression_preserves_total_witness :
  total value [Int 5; Int 7] = total value [Int 3; Int 4; Int 5].
Proof.
  apply (compression_preserves_total value
           {| commuter := {| queue := [Int 3; Int 4; Int 5]; log := [] |};
              commutator := sum_commutator |}
           {| commuter := {| queue := [Int 5; Int 7];
                             log := [CallPop 3; CallPop 2; CallPush (Int 7)] |};
              commutator := sum_commutator |} 1).
  - intros a b. reflexivity.
  - reflexivity.
Defined.

(** X5.  Compression followed by a full sequential drain: under a commutator
    that adds up a measure, the operands [COp] is then called with have, in
    total, the measure of the backlog before compression.  The fewer calls
    of [COp] stand for all the original operands. *)
Theorem compress_then_drain_applies_total
    (mu : iface -> Z) (cc cc' : CommuterWithCommutator fifo) (numOps : Z)
    (fuel : nat) :
  (forall a b, mu (commutator cc a b) = mu a + mu b) ->
  CommuterWithCommutator_CompressQueue numOps cc = Returned tt cc' ->
  (length (queue (commuter cc')) < fuel)%nat ->
  exists c'' evs,
    Commuter_CompressQueue fuel 0 (commuter cc') = Returned tt c'' /\
    queue c'' = [] /\
    log c'' = log (commuter cc') ++ evs /\
    length (cop_args evs) = length (queue (commuter cc')) /\
    total mu (cop_args evs) = total mu (queue (commuter cc)).
Proof.
  intros Hadd Hrun Hfuel.
  destruct (rounds_preserve_total mu _ _ _ _ Hadd Hrun) as [_ Ht].
  destruct (commuter cc') as [q lg] eqn:Ec. cbn [queue log] in *.
  pose proof (CompressQueue_drain q [] lg fuel Hfuel) as Hdrain.
  rewrite app_nil_r in Hdrain. cbn [length Z.of_nat] in Hdrain.
  exists {| queue := []; log := lg ++ dequeue_events q 0 |},
         (dequeue_events q 0).
  split; [exact Hdrain|]. split; [reflexivity|]. split; [reflexivity|].
  rewrite cop_args_dequeue_events. split; [reflexivity | exact Ht].
Qed.

Lemma compress_then_drain_applies_total_witness :
  exists c'' evs,
    Commuter_CompressQueue 3 0 {| queue := [Int 5; Int 7];
                                  log := [CallPop 3; CallPop 2; CallPush (Int 7)] |} =
      Returned tt c'' /\
    total value (cop_args evs) = 12.
Proof.
  destruct (compress_then_drain_applies_total value
              {| commuter := {| queue := [Int 3; Int 4; Int 5]; log := [] |};
                 commutator := sum_commutator |}
              {| commuter := {| queue := [Int 5; Int 7];
                                log := [CallPop 3; CallPop 2; CallPush (Int 7)] |};
                 commutator := sum_commutator |} 1 3)
    as (c'' & evs & Hrun & _ & _ & _ & Ht).
  - intros a b. reflexivity.
  - reflexivity.
  - cbn. lia.
  - exists c'', evs. split; [exact Hrun | exact Ht].
Defined.

(** * Further properties of the sequential drains *)

Lemma dequeue_events_app p1 p2 k :
  dequeue_events (p1 ++ p2) k =
  dequeue_events p1 (length p2 + k) ++ dequeue_events p2 k.
Proof.
  induction p1 as [|v p1 IH]; [reflexivity|].
  cbn [app dequeue_events length]. rewrite IH, length_app.
  do 2 f_equal. lia.
Qed.

(** X6.  [CompressQueue(0)] is the drain that applies every operand on its own:
    with fuel above the queue length it returns with the queue empty, having
    called [COp] once with each operand of the backlog, oldest first. *)
Theorem CompressQueue_zero_drains_in_order (c : fifo) (fuel : nat) :
  (length (queue c) < fuel)%nat ->
  exists c' evs,
    Commuter_CompressQueue fuel 0 c = Returned tt c' /\
    queue c' = [] /\
    log c' = log c ++ evs /\
    cop_args evs = queue c /\
    length (pop_lens evs) = length (queue c).
Proof.
  intros Hfuel. destruct c as [q lg]. cbn [queue log] in *.
  pose proof (CompressQueue_drain q [] lg fuel Hfuel) as Hdrain.
  rewrite app_nil_r in Hdrain. cbn [length Z.of_nat] in Hdrain.
  exists {| queue := []; log := lg ++ dequeue_events q 0 |},
         (dequeue_events q 0).
  split; [exact Hdrain|]. split; [reflexivity|]. split; [reflexivity|].
  split; [apply cop_args_dequeue_events|].
  clear. unfold pop_lens. induction q as [|v q IH]; cbn; [reflexivity|].
  now rewrite IH.
Qed.

Lemma CompressQueue_zero_drains_in_order_witness :
  exists c' evs,
    Commuter_CompressQueue 4 0 {| queue := [Int 3; Int 4; Int 5]; log := [] |} =
      Returned tt c' /\
    cop_args evs = [Int 3; Int 4; Int 5].
Proof.
  destruct (CompressQueue_zero_drains_in_order
              {| queue := [Int 3; Int 4; Int 5]; log := [] |} 4)
    as (c' & evs & Hrun & _ & _ & Hargs & _); [cbn; lia|].
  exists c', evs. split; [exact Hrun | exact Hargs].
Defined.

Lemma CompressQueue_negative_drains p : forall lg fuel d,
  d < 0 ->
  (length p < fuel)%nat ->
  Commuter_CompressQueue fuel d {| queue := p; log := lg |} =
  Panicked EmptyQueueError
    {| queue := []; log := lg ++ dequeue_events p 0 |}.
Proof.
  induction p as [|v p IH]; intros lg fuel d Hd Hfuel;
    (destruct fuel as [|fuel]; [cbn in Hfuel; lia|]);
    rewrite CompressQueue_step; unfold queue_len; cbn [queue];
    replace (d <? Z.of_nat (length _)) with true
      by (symmetry; apply Z.ltb_lt; lia).
  - cbn. now rewrite app_nil_r.
  - rewrite Dequeue_cons, IH by (cbn in Hfuel; lia || exact Hd).
    rewrite <- app_assoc. cbn [app dequeue_events length].
    now rewrite Nat.add_0_r.
Qed.

(** X7.  A negative target is never reached: with fuel above the queue length
    [CompressQueue] dequeues the whole backlog, [COp] called once with each
    operand in order, and then panics on the pop of the empty queue. *)
Theorem CompressQueue_negative_target_drains_then_panics
    (c : fifo) (desiredLength : Z) (fuel : nat) :
  desiredLength < 0 ->
  (length (queue c) < fuel)%nat ->
  exists c' evs,
    Commuter_CompressQueue fuel desiredLength c = Panicked EmptyQueueError c' /\
    queue c' = [] /\
    log c' = log c ++ evs /\
    cop_args evs = queue c.
Proof.
  intros Hd Hfuel. destruct c as [q lg]. cbn [queue log] in *.
  exists {| queue := []; log := lg ++ dequeue_events q 0 |},
         (dequeue_events q 0).
  split; [now apply CompressQueue_negative_drains|].
  split; [reflexivity|]. split; [reflexivity|].
  apply cop_args_dequeue_events.
Qed.

Lemma CompressQueue_negative_target_drains_then_panics_witness :
  exists c' evs,
    Commuter_CompressQueue 4 (-2) {| queue := [Int 3; Int 4; Int 5]; log := [] |} =
      Panicked EmptyQueueError c' /\
    cop_args evs = [Int 3; Int 4; Int 5].
Proof.
  destruct (CompressQueue_negative_target_drains_then_panics
              {| queue := [Int 3; Int 4; Int 5]; log := [] |} (-2) 4)
    as (c' & evs & Hrun & _ & _ & Hargs); [lia | cbn; lia |].
  exists c', evs. split; [exact Hrun | exact Hargs].
Defined.

(** X8.  Two compressions in a row do what one does to the smaller target: the
    second call finds the queue the first one left and goes on from there,
    down to the same state, call for call. *)
Theorem CompressQueue_twice_is_min (c : fifo) (d1 d2 : Z) (fuel : nat) :
  0 <= d1 ->
  0 <= d2 ->
  (length (queue c) < fuel)%nat ->
  (Commuter_CompressQueue fuel d1 ;;; Commuter_CompressQueue fuel d2) c =
  Commuter_CompressQueue fuel (Z.min d1 d2) c.
Proof.
  intros H1 H2 Hfuel. destruct c as [q lg]. cbn [queue] in Hfuel.
  destruct fuel as [|fuel]; [lia|]. unfold bind.
  destruct (Z_le_gt_dec (Z.of_nat (length q)) d1) as [Hle1|Hgt1].
  - (* the first call is a no-op *)
    rewrite (CompressQueue_noop fuel d1) by (unfold queue_len; cbn; lia).
    destruct (Z_le_gt_dec d2 d1) as [H21|H21].
    + now rewrite Z.min_r by lia.
    + rewrite Z.min_l by lia.
      rewrite !CompressQueue_noop by (unfold queue_len; cbn; lia).
      reflexivity.
  - (* the first call drains down to d1 *)
    set (k1 := (length q - Z.to_nat d1)%nat).
    assert (Hq : q = firstn k1 q ++ skipn k1 q) by (now rewrite firstn_skipn).
    assert (Hr1 : Z.of_nat (length (skipn k1 q)) = d1)
      by (rewrite length_skipn; subst k1; lia).
    pose proof (CompressQueue_drain (firstn k1 q) (skipn k1 q) lg (S fuel)) as D1.
    rewrite <- Hq, Hr1 in D1. rewrite D1 by (rewrite length_firstn; lia).
    destruct (Z_le_gt_dec d1 d2) as [H12|H12].
    + rewrite Z.min_l by lia. rewrite D1 by (rewrite length_firstn; lia).
      apply CompressQueue_noop. unfold queue_len. cbn [queue]. lia.
    + rewrite Z.min_r by lia.
      set (r := skipn k1 q) in *.
      set (k2 := (length r - Z.to_nat d2)%nat).
      assert (Hr : r = firstn k2 r ++ skipn k2 r) by (now rewrite firstn_skipn).
      assert (Hr2 : Z.of_nat (length (skipn k2 r)) = d2)
        by (rewrite length_skipn; subst k2; lia).
      pose proof (CompressQueue_drain (firstn k2 r) (skipn k2 r)
                    (lg ++ dequeue_events (firstn k1 q) (length r)) (S fuel))
        as D2.
      rewrite <- Hr, Hr2 in D2. rewrite D2 by (rewrite length_firstn; lia).
      pose proof (CompressQueue_drain (firstn k1 q ++ firstn k2 r)
                    (skipn k2 r) lg (S fuel)) as D.
      rewrite <- app_assoc, <- Hr, <- Hq, Hr2 in D.
      rewrite D by (rewrite length_app, !length_firstn; lia).
      rewrite dequeue_events_app, <- app_assoc.
      rewrite <- length_app, <- Hr. reflexivity.
Qed.

Lemma CompressQueue_twice_is_min_witness :
  (Commuter_CompressQueue 5 3 ;;; Commuter_CompressQueue 5 1)
    {| queue := [Int 3; Int 4; Int 5; Int 6]; log := [] |} =
  Commuter_CompressQueue 5 (Z.min 3 1)
    {| queue := [Int 3; Int 4; Int 5; Int 6]; log := [] |}.
Proof.
  apply (CompressQueue_twice_is_min
           {| queue := [Int 3; Int 4; Int 5; Int 6]; log := [] |} 3 1 5);
    [lia | lia | cbn; lia].
Defined.

Lemma aggregate_all_fifo xs : forall c : fifo,
  aggregate_all xs c =
  Returned tt {| queue := queue c ++ xs; log := log c ++ map CallPush xs |}.
Proof.
  unfold aggregate_all.
  induction xs as [|x xs IH]; intros [q lg]; cbn [range_for map].
  - unfold ret. cbn. now rewrite !app_nil_r.
  - unfold bind. run_fifo. rewrite IH. cbn [queue log].
    now rewrite <- !app_assoc.
Qed.

(** X9.  First in, first applied: operands aggregated one after the other and
    then dequeued down to length zero reach [COp] behind the operands that
    were already queued, each once, in the order they were aggregated. *)
Theorem aggregate_then_drain_keeps_order
    (c : fifo) (xs : list iface) (fuel : nat) :
  (length (queue c) + length xs < fuel)%nat ->
  exists c' evs,
    (aggregate_all xs ;;; Commuter_CompressQueue fuel 0) c = Returned tt c' /\
    queue c' = [] /\
    log c' = log c ++ map CallPush xs ++ evs /\
    cop_args evs = queue c ++ xs /\
    cop_args (map CallPush xs) = [].
Proof.
  intros Hfuel. unfold bind. rewrite aggregate_all_fifo.
  pose proof (CompressQueue_drain (queue c ++ xs) []
                (log c ++ map CallPush xs) fuel) as Hdrain.
  rewrite app_nil_r in Hdrain. cbn [length Z.of_nat] in Hdrain.
  rewrite Hdrain by (rewrite length_app; lia).
  eexists _, (dequeue_events (queue c ++ xs) 0).
  split; [reflexivity|]. cbn [queue log].
  split; [reflexivity|]. split; [now rewrite <- app_assoc|].
  split; [apply cop_args_dequeue_events|].
  clear. unfold cop_args. induction xs as [|x xs IH]; cbn; auto.
Qed.

Lemma aggregate_then_drain_keeps_order_witness :
  exists c' evs,
    (aggregate_all [Int 4; Int 5] ;;; Commuter_CompressQueue 4 0)
      {| queue := [Int 3]; log := [] |} = Returned tt c' /\
    cop_args evs = [Int 3; Int 4; Int 5].
Proof.
  destruct (aggregate_then_drain_keeps_order
              {| queue := [Int 3]; log := [] |} [Int 4; Int 5] 4)
    as (c' & evs & Hrun & _ & _ & Hargs & _); [cbn; lia|].
  exists c', evs. split; [exact Hrun | exact Hargs].
Defined.

Lemma cop_args_repeat v n : cop_args (repeat (CallCOp v) n) = repeat v n.
Proof.
  unfold cop_args. induction n as [|n IH]; cbn; [reflexivity|].
  now rewrite IH.
Qed.

(** X10.  [CollapseQueue] on any backlog of [L] operands returns with the queue
    empty after exactly [L] calls of [COp], every one of them with the whole
    detached slice; on an empty queue it calls [COp] not at all, so a second
    [CollapseQueue] right after the first adds no call. *)
Theorem CollapseQueue_calls_COp_once_per_operand (c : fifo) :
  exists c' c'',
    CollapseQueue c = Returned tt c' /\
    queue c' = [] /\
    cop_args (log c') =
      cop_args (log c) ++ repeat (Slice (queue c)) (length (queue c)) /\
    CollapseQueue c' = Returned tt c'' /\
    queue c'' = [] /\
    cop_args (log c'') = cop_args (log c').
Proof.
  eexists _, _. split; [apply CollapseQueue_fifo|].
  split; [reflexivity|]. cbn [log queue].
  split.
  { rewrite cop_args_app. cbn. fold (cop_args
      (repeat (CallCOp (Slice (queue c))) (length (queue c)))).
    now rewrite cop_args_repeat. }
  split; [apply CollapseQueue_fifo|].
  split; [reflexivity|]. cbn [log queue length repeat].
  rewrite (cop_args_app (log c ++ _)). cbn. now rewrite app_nil_r.
Qed.

(** * Further properties of the goroutine-based drain *)

(** ** The slices the loop hands out *)


Lemma slice_size_le_length (c : fifo) numWorkers :
  queue_len c < 2 ^ 63 -> slice_size c numWorkers <= queue_len c.
Proof.
  intros Hlen. pose proof (queue_len_nonneg c) as Hnn. unfold slice_size.
  destruct (Z_lt_le_dec numWorkers 0) as [Hneg|Hpos].
  - pose proof (quot_by_negative _ _ Hnn Hneg). rewrite wrap64_small; lia.
  - destruct (Z.eq_dec numWorkers 0) as [->|Hnz].
    + rewrite Z.quot_0_r_ext by reflexivity. rewrite wrap64_small; lia.
    + rewrite Z.quot_div_nonneg by lia.
      pose proof (Z.div_pos (queue_len c) numWorkers Hnn ltac:(lia)).
      pose proof (Z.div_le_upper_bound (queue_len c) numWorkers (queue_len c)
                    ltac:(lia) ltac:(nia)).
      rewrite wrap64_small; lia.
Qed.

Lemma worker_slice_in_range s (q : list iface) (i : nat) :
  0 < s ->
  Z.of_nat (length q) < 2 ^ 31 ->
  (Z.of_nat i + 1) * s <= Z.of_nat (length q) ->
  worker_slice s q i = [firstn (Z.to_nat s) (skipn (i * Z.to_nat s) q)].
Proof.
  intros Hs Hq Hhi. unfold worker_slice, slice_expr.
  assert (Hlo : 0 <= Z.of_nat i * s <= (Z.of_nat i + 1) * s) by nia.
  rewrite !wrap64_small by lia.
  replace ((0 <=? Z.of_nat i * s) && (Z.of_nat i * s <=? (Z.of_nat i + 1) * s)
           && ((Z.of_nat i + 1) * s <=? Z.of_nat (length q))) with true
    by (symmetry; rewrite !andb_true_iff, !Z.leb_le; lia).
  replace (Z.to_nat ((Z.of_nat i + 1) * s - Z.of_nat i * s)) with (Z.to_nat s)
    by (f_equal; lia).
  replace (Z.to_nat (Z.of_nat i * s)) with (i * Z.to_nat s)%nat by nia.
  reflexivity.
Qed.







(** ** Slices out of range *)





Lemma slice_size_nonneg (c : fifo) numWorkers :
  0 < numWorkers -> queue_len c < 2 ^ 63 -> 0 <= slice_size c numWorkers.
Proof.
  intros Hn Hlen. pose proof (queue_len_nonneg c) as Hnn. unfold slice_size.
  rewrite Z.quot_div_nonneg by lia.
  pose proof (Z.div_pos (queue_len c) numWorkers Hnn Hn).
  pose proof (Z.div_le_upper_bound (queue_len c) numWorkers (queue_len c)
                ltac:(lia) ltac:(nia)).
  rewrite wrap64_small; lia.
Qed.






(** X14.  With more workers than operands the slice size is zero: the loop never
    turns, so under every schedule no goroutine is spawned and [COp] is
    never called, and the caller comes back. *)
Theorem PCollapseQueue_more_workers_than_operands
    (join : bool) (numWorkers : Z) (c : fifo) (sched : list nat) :
  queue_len c < numWorkers ->
  queue_len c < 2 ^ 63 ->
  let m := run sched (PCollapseQueue join numWorkers c) in
  goroutines m = [] /\
  cop_args (log (shared m)) = cop_args (log c) /\
  (forall p, caller m <> Crashed p) /\
  caller (run (sched ++ [0; 0]%nat) (PCollapseQueue join numWorkers c)) = Back.
Proof.
  intros Hn Hlen m. pose proof (queue_len_nonneg c) as Hnn.
  assert (Hs : slice_size c numWorkers = 0).
  { unfold slice_size. rewrite Z.quot_small by lia. reflexivity. }
  assert (Hidle : forall sch,
            let m' := run sch (PCollapseQueue join numWorkers c) in
            goroutines m' = [] /\
            shared m' = {| queue := []; log := log c ++ [CallEmptyQueue] |} /\
            wg m' = 0 /\
            (caller m' = Spawning join (slice_size c numWorkers) (queue c) 0 \/
             caller m' = Waiting \/ caller m' = Back)).
  { intros sch.
    apply (idle_run join (slice_size c numWorkers) (queue c)); try lia;
      rewrite PCollapseQueue_start by lia; cbn -[slice_size]; auto. }
  destruct (Hidle sched) as (Hg & Hsh & Hwg & Hc). fold m in Hg, Hsh, Hwg, Hc.
  split; [exact Hg|]. split.
  { rewrite Hsh. cbn. rewrite cop_args_app. cbn. apply app_nil_r. }
  split.
  { intros p. destruct Hc as [Hc|[Hc|Hc]]; rewrite Hc; discriminate. }
  rewrite run_app. fold m.
  clearbody m. destruct m as [sh ce w gs ca wa].
  cbn [goroutines shared wg caller] in Hg, Hsh, Hwg, Hc. subst gs sh w.
  rewrite !run_cons. cbn [run fold_left]. rewrite Hs in *.
  destruct Hc as [Hc|[Hc|Hc]]; subst ca;
    unfold step, caller_step; cbn; destruct join; reflexivity.
Qed.

Lemma PCollapseQueue_more_workers_than_operands_witness :
  goroutines (run [0; 1; 0]%nat
                (PCollapseQueue true 5 {| queue := [Int 1; Int 2]; log := [] |})) = [].
Proof.
  apply (PCollapseQueue_more_workers_than_operands true 5
           {| queue := [Int 1; Int 2]; log := [] |} [0; 1; 0]%nat).
  - vm_compute. reflexivity.
  - vm_compute. reflexivity.
Defined.

(** ** No deadlock *)

Ltac hide_product :=
  match goal with
  | |- context [(?a * ?b)%nat] =>
      let x := fresh "x" in generalize (a * b)%nat; intro x
  end.

Lemma slice_expr_length {A} (q : list A) lo hi sl :
  slice_expr q lo hi = Some sl -> (length sl <= Z.to_nat (hi - lo))%nat.
Proof.
  unfold slice_expr.
  destruct ((0 <=? lo) && (lo <=? hi) && (hi <=? Z.of_nat (length q)));
    [|discriminate].
  intros H. inversion H; subst. rewrite length_firstn. lia.
Qed.

Lemma live_goroutine gs :
  (0 < live gs)%nat ->
  exists k g, nth_error gs k = Some g /\ is_live g = true.
Proof.
  unfold live. induction gs as [|g gs IH]; cbn; intros Hl; [lia|].
  destruct (is_live g) eqn:Eg.
  - exists 0%nat, g. split; [reflexivity | exact Eg].
  - destruct (IH Hl) as (k & g' & Hk & Hg').
    exists (S k), g'. split; assumption.
Qed.

Lemma goroutine_step_drainers join k (m : machine fifo) :
  Forall (drains_with join) (goroutines m) ->
  caller (goroutine_step k m) = caller m.
Proof.
  intros Hall. unfold goroutine_step.
  destruct (nth_error (goroutines m) k) as [[[|v rest] j|j numOps pc|]|] eqn:Ek;
    try reflexivity.
  - destruct j; reflexivity.
  - exfalso. exact (nth_error_Forall _ _ _ _ Hall Ek).
Qed.

(** In a state whose caller is in its loop or waiting, some thread has a
    step that brings the end nearer; and while the slices fit, that step
    does not panic. *)
Lemma can_progress join s q base (m : machine fifo) :
  0 < s -> s < 2 ^ 31 ->
  drain_inv join s q base m ->
  (exists i, caller m = Spawning join s q i) \/ caller m = Waiting ->
  exists t,
    (budget (step t m) < budget m)%nat /\
    (s * s <= Z.of_nat (length q) -> Z.of_nat (length q) < 2 ^ 31 ->
     forall p, caller (step t m) <> Crashed p).
Proof.
  intros Hs Hs31 (n & Hn & _ & Hall & _ & Hc) Hcase.
  destruct Hcase as [[i Ec]|Ec]; rewrite Ec in Hc.
  - (* the caller takes a turn of its loop, or leaves it *)
    destruct Hc as (_ & _ & _ & -> & _ & _).
    exists 0%nat. unfold step. rewrite Ec. unfold caller_step. rewrite Ec.
    destruct (Z.of_nat n <? s) eqn:E.
    + apply Z.ltb_lt in E.
      destruct (slice_expr q (wrap64 (Z.of_nat n * s))
                  (wrap64 ((Z.of_nat n + 1) * s))) as [sl|] eqn:Es.
      * pose proof (slice_expr_length _ _ _ _ Es) as Hsl.
        assert (Hb : 0 <= Z.of_nat n * s /\
                     (Z.of_nat n + 1) * s <= 2 ^ 31 * 2 ^ 31) by nia.
        rewrite !wrap64_small in Hsl by lia.
        replace (Z.to_nat ((Z.of_nat n + 1) * s - Z.of_nat n * s))
          with (Z.to_nat s) in Hsl by (f_equal; lia).
        split; [|destruct join; discriminate].
        unfold budget.
        assert (Hp : forall m0 : machine fifo,
                  goroutines m0 = goroutines m ->
                  budget (set_caller (Spawning join s q (Z.of_nat n + 1))
                            (spawn (Draining sl join) m0)) =
                  (2 + Z.to_nat (s - (Z.of_nat n + 1)) * (Z.to_nat s + 2) +
                   (length (pending (goroutines m)) + length sl) +
                   (live (goroutines m) + 1))%nat).
        { intros m0 E0. unfold budget.
          cbn [caller set_caller goroutines spawn]. rewrite E0.
          rewrite pending_app, live_app, length_app.
          change (pending [Draining sl join]) with (sl ++ []).
          rewrite app_nil_r. reflexivity. }
        fold (budget (set_caller (Spawning join s q (Z.of_nat n + 1))
                        (spawn (Draining sl join)
                           (if join then add_wg 1 m else m)))).
        rewrite Hp by (destruct join; reflexivity).
        rewrite Ec.
        replace (Z.to_nat (s - Z.of_nat n))
          with (S (Z.to_nat (s - (Z.of_nat n + 1)))) by lia.
        lia.
      * split.
        -- unfold budget. rewrite Ec.
           destruct join; cbn; unfold live, pending; hide_product; lia.
        -- intros Hfit Hq p _.
           assert (Hin : (Z.of_nat n + 1) * s <= Z.of_nat (length q)) by nia.
           pose proof (worker_slice_in_range s q n Hs Hq Hin) as Hw.
           unfold worker_slice in Hw. rewrite Es in Hw. discriminate.
    + split; [|destruct join; discriminate].
      unfold budget. rewrite Ec.
      destruct join; cbn; unfold live, pending; hide_product; lia.
  - (* the caller waits: it returns, or a goroutine moves on *)
    destruct Hc as (-> & _ & _ & Hwg).
    destruct (Nat.eq_dec (live (goroutines m)) 0) as [Hz|Hnz].
    + exists 0%nat. unfold step. rewrite Ec. unfold caller_step. rewrite Ec.
      replace (wg m =? 0) with true by (symmetry; apply Z.eqb_eq; lia).
      split; [|discriminate].
      unfold budget. rewrite Ec. cbn. unfold live, pending. lia.
    + destruct (live_goroutine (goroutines m) ltac:(lia)) as (k & g & Hk & Hg).
      exists (S k). unfold step. rewrite Ec.
      split; [|intros _ _ p;
               rewrite (goroutine_step_drainers true k m Hall), Ec;
               discriminate].
      pose proof (goroutine_step_drainers true k m Hall) as Hcal.
      unfold budget. rewrite Hcal, Ec.
      unfold goroutine_step in *. rewrite Hk in *.
      destruct g as [[|v rest] j|j numOps pc|]; try discriminate.
      * destruct (pending_exit _ _ _ Hk) as [Hp Hl].
        destruct j; cbn [goroutines set_goroutine add_wg]; rewrite Hp; lia.
      * destruct (pending_take _ _ _ _ _ Hk) as [Hp Hl].
        apply Permutation_length in Hp. cbn [length] in Hp.
        cbn. unfold fifo_COp. cbn. unfold live, pending in *. rewrite Hl. lia.
      * exfalso. exact (nth_error_Forall _ _ _ _ Hall Hk).
Qed.

Lemma can_finish join s q base b : forall m : machine fifo,
  0 < s -> s < 2 ^ 31 ->
  (budget m <= b)%nat ->
  drain_inv join s q base m ->
  exists sched,
    (caller (run sched m) = Back \/
     caller (run sched m) = Crashed SliceBoundsOutOfRange) /\
    (s * s <= Z.of_nat (length q) -> Z.of_nat (length q) < 2 ^ 31 ->
     (forall p, caller m <> Crashed p) ->
     caller (run sched m) = Back).
Proof.
  induction b as [|b IH]; intros m Hs Hs31 Hb Hinv.
  - (* no budget left: the caller is through *)
    exists []. cbn [run fold_left].
    destruct Hinv as (n & _ & _ & _ & _ & Hc). unfold budget in Hb.
    destruct (caller m) as [j s' q' i| | | | |]; try contradiction; try lia.
    + split; [now left | reflexivity].
    + destruct Hc as [-> _]. split; [now right|]. intros _ _ Hnc.
      elim (Hnc _ eq_refl).
  - destruct (caller m) as [j s' q' i| | | | |] eqn:Ec.
    + assert (Hsp : exists i0, caller m = Spawning join s q i0).
      { destruct Hinv as (n & _ & _ & _ & _ & Hc). rewrite Ec in Hc.
        destruct Hc as (-> & -> & -> & _). eauto. }
      destruct (can_progress join s q base m Hs Hs31 Hinv (or_introl Hsp))
        as (t & Hlt & Hnc).
      destruct (IH (step t m) Hs Hs31 ltac:(lia)
                  (step_drain_inv join s q base t m Hinv))
        as (sched & Hend & Hfit).
      exists (t :: sched). rewrite run_cons. split; [exact Hend|].
      intros H1 H2 _. apply Hfit; auto.
    + destruct Hinv as (n & _ & _ & _ & _ & Hc). rewrite Ec in Hc.
      contradiction.
    + destruct (can_progress join s q base m Hs Hs31 Hinv (or_intror Ec))
        as (t & Hlt & Hnc).
      destruct (IH (step t m) Hs Hs31 ltac:(lia)
                  (step_drain_inv join s q base t m Hinv))
        as (sched & Hend & Hfit).
      exists (t :: sched). rewrite run_cons. split; [exact Hend|].
      intros H1 H2 _. apply Hfit; auto.
    + exists []. cbn [run fold_left]. rewrite Ec.
      split; [now left | reflexivity].
    + exists []. cbn [run fold_left]. rewrite Ec.
      destruct Hinv as (n & _ & _ & _ & _ & Hc). rewrite Ec in Hc.
      destruct Hc as [-> _]. split; [now right|]. intros _ _ Hnc.
      elim (Hnc _ eq_refl).
    + destruct Hinv as (n & _ & _ & _ & _ & Hc). rewrite Ec in Hc.
      contradiction.
Qed.

Lemma step_never_crashes join s q base t (m : machine fifo) :
  0 < s ->
  Z.of_nat (length q) < 2 ^ 31 ->
  s * s <= Z.of_nat (length q) ->
  drain_inv join s q base m ->
  (forall p, caller m <> Crashed p) ->
  forall p, caller (step t m) <> Crashed p.
Proof.
  intros Hs Hlen Hfit (n & Hns & _ & Hall & _ & Hc) Hnc p. unfold step.
  destruct (caller m) as [j s' q' i| | | | |] eqn:Ec.
  - destruct Hc as (-> & -> & -> & -> & _). destruct t as [|k].
    + unfold caller_step. rewrite Ec.
      destruct (Z.of_nat n <? s) eqn:E; [|destruct join; discriminate].
      apply Z.ltb_lt in E.
      assert (Hin : (Z.of_nat n + 1) * s <= Z.of_nat (length q)) by nia.
      pose proof (worker_slice_in_range s q n Hs Hlen Hin) as Hw.
      unfold worker_slice in Hw.
      destruct (slice_expr q (wrap64 (Z.of_nat n * s))
                  (wrap64 ((Z.of_nat n + 1) * s))); [|discriminate].
      destruct join; discriminate.
    + rewrite (goroutine_step_drainers join k m Hall), Ec. discriminate.
  - contradiction.
  - destruct t as [|k].
    + unfold caller_step. rewrite Ec.
      destruct (wg m =? 0); [cbn; discriminate | rewrite Ec; discriminate].
    + rewrite (goroutine_step_drainers join k m Hall), Ec. discriminate.
  - destruct t as [|k].
    + unfold caller_step. rewrite Ec, Ec. discriminate.
    + rewrite (goroutine_step_drainers join k m Hall), Ec. discriminate.
  - elim (Hnc _ eq_refl).
  - rewrite Ec. discriminate.
Qed.

Lemma never_crashes_when_slices_fit join numWorkers (c : fifo) sched :
  0 < numWorkers ->
  queue_len c < 2 ^ 31 ->
  slice_size c numWorkers * slice_size c numWorkers <= queue_len c ->
  slice_size c numWorkers <> 0 ->
  forall p, caller (run sched (PCollapseQueue join numWorkers c)) <> Crashed p.
Proof.
  intros Hn Hlen Hfit Hnz.
  pose proof (slice_size_nonneg c numWorkers Hn ltac:(lia)) as Hs0.
  set (s := slice_size c numWorkers) in *. unfold queue_len in *.
  assert (Hgen : forall sch (m : machine fifo),
            drain_inv join s (queue c) (cop_args (log c)) m ->
            (forall p, caller m <> Crashed p) ->
            forall p, caller (run sch m) <> Crashed p).
  { induction sch as [|t sch IH]; intros m Hinv Hnc; [exact Hnc|].
    rewrite run_cons. apply IH; [now apply step_drain_inv|].
    apply (step_never_crashes join s (queue c) (cop_args (log c)));
      try assumption; lia. }
  apply Hgen.
  - apply PCollapseQueue_drain_inv. lia.
  - intros p. rewrite PCollapseQueue_start by lia. discriminate.
Qed.

Lemma idle_run_returns join numWorkers (c : fifo) sched :
  numWorkers <> 0 ->
  slice_size c numWorkers <= 0 ->
  caller (run (sched ++ [0; 0]%nat) (PCollapseQueue join numWorkers c)) = Back.
Proof.
  intros Hn Hs.
  assert (Hidle :
    let m := run sched (PCollapseQueue join numWorkers c) in
    goroutines m = [] /\
    shared m = {| queue := []; log := log c ++ [CallEmptyQueue] |} /\
    wg m = 0 /\
    (caller m = Spawning join (slice_size c numWorkers) (queue c) 0 \/
     caller m = Waiting \/ caller m = Back)).
  { apply (idle_run join (slice_size c numWorkers) (queue c)); try exact Hs;
      rewrite PCollapseQueue_start by exact Hn; cbn -[slice_size]; auto. }
  rewrite run_app.
  set (m := run sched (PCollapseQueue join numWorkers c)) in *.
  cbv zeta in Hidle. destruct Hidle as (Hg & Hsh & Hwg & Hc).
  assert (Hf : (0 <? slice_size c numWorkers) = false)
    by (apply Z.ltb_ge; exact Hs).
  clearbody m. destruct m as [sh ce w gs ca wa].
  cbn [goroutines shared wg caller] in Hg, Hsh, Hwg, Hc. subst gs sh w.
  rewrite !run_cons. cbn [run fold_left].
  destruct Hc as [Hc|[Hc|Hc]]; subst ca;
    unfold step, caller_step; cbn -[slice_size]; rewrite ?Hf;
    destruct join; reflexivity.
Qed.

(** X15.  No deadlock.  From whatever state a run of [PCollapseQueue] has
    reached, in either variant, the schedule can be continued so that the
    call ends: it is back, or it has panicked in a slice expression.  While
    [s * s] operands fit in the backlog it never panics, so it can always
    come back: the caller waiting on the WaitGroup is never stuck. *)
Theorem PCollapseQueue_can_always_finish
    (join : bool) (numWorkers : Z) (c : fifo) (sched : list nat) :
  0 < numWorkers ->
  queue_len c < 2 ^ 31 ->
  let s := slice_size c numWorkers in
  exists rest,
    let m := run (sched ++ rest) (PCollapseQueue join numWorkers c) in
    (caller m = Back \/ caller m = Crashed SliceBoundsOutOfRange) /\
    (s * s <= queue_len c -> caller m = Back).
Proof.
  intros Hn Hlen s.
  pose proof (slice_size_nonneg c numWorkers Hn ltac:(lia)) as Hs0.
  pose proof (slice_size_le_length c numWorkers ltac:(lia)) as HsL.
  fold s in Hs0, HsL.
  pose proof (run_drain_inv join s (queue c) (cop_args (log c)) sched _
                (PCollapseQueue_drain_inv join numWorkers c ltac:(lia)))
    as Hinv.
  destruct (Z.eq_dec s 0) as [Hz|Hnz].
  - (* the loop does not turn *)
    exists [0; 0]%nat. cbv zeta.
    pose proof (idle_run_returns join numWorkers c sched ltac:(lia)
                  ltac:(fold s; lia)) as Hback.
    split; [now left | intros _; exact Hback].
  - destruct (can_finish join s (queue c) (cop_args (log c))
                (budget (run sched (PCollapseQueue join numWorkers c)))
                (run sched (PCollapseQueue join numWorkers c)))
      as (rest & Hend & Hfit); unfold queue_len in *; try lia; [exact Hinv|].
    exists rest. cbv zeta. rewrite run_app. split; [exact Hend|].
    intros Hsq. apply Hfit; try lia.
    apply never_crashes_when_slices_fit; unfold queue_len; try lia;
      fold s; lia.
Qed.

Lemma PCollapseQueue_can_always_finish_witness :
  exists rest,
    caller (run ([0; 1; 0]%nat ++ rest)
              (PCollapseQueue true 3 {| queue := ten_operands; log := [] |})) =
    Back.
Proof.
  destruct (PCollapseQueue_can_always_finish true 3
              {| queue := ten_operands; log := [] |} [0; 1; 0]%nat)
    as (rest & _ & Hfit); [lia | vm_compute; reflexivity |].
  exists rest. apply Hfit. vm_compute. discriminate.
Defined.
